(** * Digital-Twin waste optimisation: the tabular pipeline of [app.py]

    A shallow embedding of the four helper functions of [app.py]
    ([summarize_routes], [simulate_scenario], [calculate_smart_bin_roi],
    [calculate_carbon_emissions]) over IEEE-754 binary64 numbers, which is
    what the pandas columns of the program hold.  Tables are lists of
    records; a missing cell of a float column is the float NaN, a missing
    cell of an identifier column is [None]. *)

From Stdlib Require Import ZArith List String Bool Lia Permutation.
From Stdlib Require Import Reals Lra Psatz.
From Stdlib Require Import Uint63 Floats.
From Stdlib Require Import Sorted.
Import ListNotations.

Set Warnings "-inexact-float".

Local Open Scope float_scope.

(** ** Numbers *)

(** Conversion of an int64 cell ([-2^63 <= z < 2^63]) to float64, as numpy
    does when an integer column meets a float column. *)
Definition of_int64 (z : Z) : float :=
  match z with
  | Zneg p =>
      if (Zpos p <? 2 ^ 63)%Z then - of_uint63 (Uint63.of_Z (Zpos p)) else -0x1p63
  | _ => of_uint63 (Uint63.of_Z z)
  end.

(** [np.minimum], element by element: the first operand when it is at most
    the second or is NaN, else the second. *)
Definition np_minimum (x y : float) : float :=
  if (x <=? y) || is_nan x then x else y.

(** The reductions of pandas ([sum], [mean], [count]) skip NaN cells
    ([skipna=True]).  [fsum] adds the remaining cells from 0.0, in order:
    this is [DataFrame.sum(axis=1)] on a row.  For the sum and the mean of
    a group it is the plain accumulation; the compiled group reductions of
    the library compensate the rounding and can differ from it in the last
    digit, in the sign of a zero and at overflow.  No general result below
    uses a group sum or a group mean: those are proved for arbitrary
    aggregates, and the sample tables have exact partial sums. *)
Definition notna (x : float) : bool := negb (is_nan x).

Definition fsum (xs : list float) : float :=
  fold_left PrimFloat.add (filter notna xs) 0.

Definition fcount (xs : list float) : Z :=
  Z.of_nat (List.length (filter notna xs)).

Definition fmean (xs : list float) : float :=
  fsum xs / of_int64 (fcount xs).

(** Sum of an int64 column, with the wrap-around of the machine type. *)
Definition wrap64 (z : Z) : Z :=
  ((z + 2 ^ 63) mod 2 ^ 64 - 2 ^ 63)%Z.

Definition isum (xs : list Z) : Z :=
  fold_left (fun a x => wrap64 (a + x)) xs 0%Z.

(** ** Tables *)

Module Household.
Record row := mk {
  household_id : option Z;
  collection_route : option string;
  population : Z;
  waste_gen_kg_per_day : float;
  recycling_rate : float;
  route_length_km : float;
  route_time_hr : float }.
End Household.

Module Summary.
Record row := mk {
  collection_route : string;
  total_households : Z;
  total_population : Z;
  avg_waste_kg_per_day : float;
  avg_recycling_rate : float;
  avg_route_length_km : float;
  avg_route_time_hr : float;
  total_distance_km : float;
  total_time_hr : float;
  fuel_cost_per_km : float;
  labor_cost_per_hour : Z;
  maintenance_cost_per_km : float;
  total_fuel_cost : float;
  total_labor_cost : float;
  total_maintenance_cost : float;
  total_operational_cost : float;
  total_waste_kg_per_day : float;
  cost_per_kg_waste : float }.
End Summary.

Module Scenario.
Record row := mk {
  collection_route : string;
  adjusted_waste_kg_per_day : float;
  new_recycling_rate : float;
  total_operational_cost : float;
  cost_per_kg_waste : float }.
End Scenario.

Module Roi.
Record row := mk {
  collection_route : string;
  total_operational_cost : float;
  expected_annual_savings : float;
  roi_years : float }.
End Roi.

Module Carbon.
Record row := mk {
  collection_route : string;
  total_distance_km : float;
  carbon_emission_kg : float }.
End Carbon.

(** ** [df.groupby("collection_route")] *)

(** Group keys are the distinct identifiers that are present, in ascending
    order ([sort=True]); rows whose key is missing belong to no group
    ([dropna=True]). *)
Fixpoint insert_sorted (k : string) (ks : list string) : list string :=
  match ks with
  | [] => [k]
  | k' :: ks' => if String.leb k k' then k :: ks else k' :: insert_sorted k ks'
  end.

Definition sort_keys (ks : list string) : list string :=
  fold_right insert_sorted [] ks.

Definition present_keys (df : list Household.row) : list string :=
  flat_map (fun h => match Household.collection_route h with
                     | Some k => [k]
                     | None => []
                     end) df.

Definition group_keys (df : list Household.row) : list string :=
  sort_keys (nodup string_dec (present_keys df)).

Definition in_group (k : string) (h : Household.row) : bool :=
  match Household.collection_route h with
  | Some k' => String.eqb k k'
  | None => false
  end.

Definition group (k : string) (df : list Household.row) : list Household.row :=
  filter (in_group k) df.

Definition count_present {A} (xs : list (option A)) : Z :=
  Z.of_nat (List.length (filter (fun x => match x with Some _ => true | None => false end) xs)).

(** ** [summarize_routes] *)

(** The [.agg(...)] step: one record of aggregates for the group of [k]. *)
Record aggregates := mk_agg {
  agg_route : string;
  agg_households : Z;
  agg_population : Z;
  agg_avg_waste : float;
  agg_avg_recycling : float;
  agg_avg_length : float;
  agg_avg_time : float;
  agg_distance : float;
  agg_time : float }.

Definition agg (k : string) (g : list Household.row) : aggregates :=
  {| agg_route := k;
     agg_households := count_present (map Household.household_id g);
     agg_population := isum (map Household.population g);
     agg_avg_waste := fmean (map Household.waste_gen_kg_per_day g);
     agg_avg_recycling := fmean (map Household.recycling_rate g);
     agg_avg_length := fmean (map Household.route_length_km g);
     agg_avg_time := fmean (map Household.route_time_hr g);
     agg_distance := fsum (map Household.route_length_km g);
     agg_time := fsum (map Household.route_time_hr g) |}.

(** [DataFrame.sum(axis=1)] over the selected columns of one row: again a
    sum that skips NaN cells. *)
Definition row_sum (xs : list float) : float := fsum xs.

(** The constant and derived columns attached to one aggregated row. *)
Definition derive (a : aggregates) : Summary.row :=
  let fuel_cost_per_km := 0.8 in
  let labor_cost_per_hour := 15%Z in
  let maintenance_cost_per_km := 0.1 in
  let total_fuel_cost := agg_distance a * fuel_cost_per_km in
  let total_labor_cost := agg_time a * of_int64 labor_cost_per_hour in
  let total_maintenance_cost := agg_distance a * maintenance_cost_per_km in
  let total_operational_cost :=
    row_sum [total_fuel_cost; total_labor_cost; total_maintenance_cost] in
  let total_waste_kg_per_day := of_int64 (agg_households a) * agg_avg_waste a in
  {| Summary.collection_route := agg_route a;
     Summary.total_households := agg_households a;
     Summary.total_population := agg_population a;
     Summary.avg_waste_kg_per_day := agg_avg_waste a;
     Summary.avg_recycling_rate := agg_avg_recycling a;
     Summary.avg_route_length_km := agg_avg_length a;
     Summary.avg_route_time_hr := agg_avg_time a;
     Summary.total_distance_km := agg_distance a;
     Summary.total_time_hr := agg_time a;
     Summary.fuel_cost_per_km := fuel_cost_per_km;
     Summary.labor_cost_per_hour := labor_cost_per_hour;
     Summary.maintenance_cost_per_km := maintenance_cost_per_km;
     Summary.total_fuel_cost := total_fuel_cost;
     Summary.total_labor_cost := total_labor_cost;
     Summary.total_maintenance_cost := total_maintenance_cost;
     Summary.total_operational_cost := total_operational_cost;
     Summary.total_waste_kg_per_day := total_waste_kg_per_day;
     Summary.cost_per_kg_waste := total_operational_cost / total_waste_kg_per_day |}.

Definition summarize_routes (df : list Household.row) : list Summary.row :=
  map (fun k => derive (agg k (group k df))) (group_keys df).

(** ** [simulate_scenario] *)

(** The copied frame after the column assignments, one row at a time. *)
Record sim_row := mk_sim {
  sim_base : Summary.row;
  sim_new_recycling_rate : float;
  sim_adjusted_waste_kg_per_day : float;
  sim_fuel_cost_per_km : float;
  sim_total_fuel_cost : float;
  sim_total_operational_cost : float;
  sim_cost_per_kg_waste : float }.

Definition simulate_row (recycling_increase fuel_cost_multiplier : float)
    (s : Summary.row) : sim_row :=
  let new_recycling_rate :=
    np_minimum (Summary.avg_recycling_rate s + recycling_increase) 1.0 in
  let adjusted_waste_kg_per_day :=
    of_int64 (Summary.total_households s) * Summary.avg_waste_kg_per_day s
    * (1 - new_recycling_rate) in
  let fuel_cost_per_km := 0.8 * fuel_cost_multiplier in
  let total_fuel_cost := Summary.total_distance_km s * fuel_cost_per_km in
  let total_operational_cost :=
    total_fuel_cost + Summary.total_labor_cost s + Summary.total_maintenance_cost s in
  {| sim_base := s;
     sim_new_recycling_rate := new_recycling_rate;
     sim_adjusted_waste_kg_per_day := adjusted_waste_kg_per_day;
     sim_fuel_cost_per_km := fuel_cost_per_km;
     sim_total_fuel_cost := total_fuel_cost;
     sim_total_operational_cost := total_operational_cost;
     sim_cost_per_kg_waste := total_operational_cost / adjusted_waste_kg_per_day |}.

(** The final column selection. *)
Definition select_scenario (r : sim_row) : Scenario.row :=
  {| Scenario.collection_route := Summary.collection_route (sim_base r);
     Scenario.adjusted_waste_kg_per_day := sim_adjusted_waste_kg_per_day r;
     Scenario.new_recycling_rate := sim_new_recycling_rate r;
     Scenario.total_operational_cost := sim_total_operational_cost r;
     Scenario.cost_per_kg_waste := sim_cost_per_kg_waste r |}.

Definition simulate_scenario (summary_df : list Summary.row)
    (recycling_increase fuel_cost_multiplier : float) : list Scenario.row :=
  map (fun s => select_scenario (simulate_row recycling_increase fuel_cost_multiplier s))
      summary_df.

(** ** [calculate_smart_bin_roi] and [calculate_carbon_emissions] *)

Definition roi_row (smart_bin_cost_per_route annual_savings_factor : float)
    (s : Summary.row) : Roi.row :=
  let expected_annual_savings := Summary.total_operational_cost s * annual_savings_factor in
  {| Roi.collection_route := Summary.collection_route s;
     Roi.total_operational_cost := Summary.total_operational_cost s;
     Roi.expected_annual_savings := expected_annual_savings;
     Roi.roi_years := smart_bin_cost_per_route / expected_annual_savings |}.

Definition calculate_smart_bin_roi (summary_df : list Summary.row)
    (smart_bin_cost_per_route annual_savings_factor : float) : list Roi.row :=
  map (roi_row smart_bin_cost_per_route annual_savings_factor) summary_df.

Definition carbon_row (emission_per_km : float) (s : Summary.row) : Carbon.row :=
  {| Carbon.collection_route := Summary.collection_route s;
     Carbon.total_distance_km := Summary.total_distance_km s;
     Carbon.carbon_emission_kg := Summary.total_distance_km s * emission_per_km |}.

Definition calculate_carbon_emissions (summary_df : list Summary.row)
    (emission_per_km : float) : list Carbon.row :=
  map (carbon_row emission_per_km) summary_df.

(** ** Sample data *)

Definition route_a : string := "Route_A".

Definition sample_df : list Household.row :=
  [ Household.mk (Some 1%Z) (Some route_a) 3 4 0.25 4 0.75;
    Household.mk (Some 2%Z) (Some route_a) 4 6 0.75 6 1.25 ].

(** The same two households with everything recycled. *)
Definition recycled_df : list Household.row :=
  [ Household.mk (Some 1%Z) (Some route_a) 3 4 1 4 0.75;
    Household.mk (Some 2%Z) (Some route_a) 4 6 1 6 1.25 ].

(** The same two households on a route of no length and no time. *)
Definition depot_df : list Household.row :=
  [ Household.mk (Some 1%Z) (Some route_a) 3 4 0.25 0 0;
    Household.mk (Some 2%Z) (Some route_a) 4 6 0.75 0 0 ].

(** A file whose route lengths read [inf] and [-inf]. *)
Definition unbounded_df : list Household.row :=
  [ Household.mk (Some 1%Z) (Some route_a) 3 4 0.25 infinity 0.75;
    Household.mk (Some 2%Z) (Some route_a) 4 6 0.75 neg_infinity 1.25 ].

(** One household whose recycling rate is below the rounding unit. *)
Definition trace_df : list Household.row :=
  [ Household.mk (Some 1%Z) (Some route_a) 3 5 0x1p-60 10 2 ].

(** One household with a minute waste on a very long route. *)
Definition huge_df : list Household.row :=
  [ Household.mk (Some 1%Z) (Some route_a) 3 0x1p-1000 0.5 0x1p1000 2 ].

(** One household whose waste and route time are the least positive
    number. *)
Definition speck_df : list Household.row :=
  [ Household.mk (Some 1%Z) (Some route_a) 3 0x1p-1074 0.25 0 0x1p-1074 ].

(** Two route summaries that agree except in [fuel_cost_per_km]. *)
Definition same_but_fuel_cost_per_km (a b : Summary.row) : Prop :=
  Summary.collection_route a = Summary.collection_route b /\
  Summary.total_households a = Summary.total_households b /\
  Summary.total_population a = Summary.total_population b /\
  Summary.avg_waste_kg_per_day a = Summary.avg_waste_kg_per_day b /\
  Summary.avg_recycling_rate a = Summary.avg_recycling_rate b /\
  Summary.avg_route_length_km a = Summary.avg_route_length_km b /\
  Summary.avg_route_time_hr a = Summary.avg_route_time_hr b /\
  Summary.total_distance_km a = Summary.total_distance_km b /\
  Summary.total_time_hr a = Summary.total_time_hr b /\
  Summary.labor_cost_per_hour a = Summary.labor_cost_per_hour b /\
  Summary.maintenance_cost_per_km a = Summary.maintenance_cost_per_km b /\
  Summary.total_fuel_cost a = Summary.total_fuel_cost b /\
  Summary.total_labor_cost a = Summary.total_labor_cost b /\
  Summary.total_maintenance_cost a = Summary.total_maintenance_cost b /\
  Summary.total_operational_cost a = Summary.total_operational_cost b /\
  Summary.total_waste_kg_per_day a = Summary.total_waste_kg_per_day b /\
  Summary.cost_per_kg_waste a = Summary.cost_per_kg_waste b.

Definition with_fuel_cost_per_km (v : float) (s : Summary.row) : Summary.row :=
  {| Summary.collection_route := Summary.collection_route s;
     Summary.total_households := Summary.total_households s;
     Summary.total_population := Summary.total_population s;
     Summary.avg_waste_kg_per_day := Summary.avg_waste_kg_per_day s;
     Summary.avg_recycling_rate := Summary.avg_recycling_rate s;
     Summary.avg_route_length_km := Summary.avg_route_length_km s;
     Summary.avg_route_time_hr := Summary.avg_route_time_hr s;
     Summary.total_distance_km := Summary.total_distance_km s;
     Summary.total_time_hr := Summary.total_time_hr s;
     Summary.fuel_cost_per_km := v;
     Summary.labor_cost_per_hour := Summary.labor_cost_per_hour s;
     Summary.maintenance_cost_per_km := Summary.maintenance_cost_per_km s;
     Summary.total_fuel_cost := Summary.total_fuel_cost s;
     Summary.total_labor_cost := Summary.total_labor_cost s;
     Summary.total_maintenance_cost := Summary.total_maintenance_cost s;
     Summary.total_operational_cost := Summary.total_operational_cost s;
     Summary.total_waste_kg_per_day := Summary.total_waste_kg_per_day s;
     Summary.cost_per_kg_waste := Summary.cost_per_kg_waste s |}.

(** The one route of each sample table. *)
Definition route_of (df : list Household.row) : Summary.row :=
  derive (agg route_a (group route_a df)).

(** ** The page *)

(** The scenario table of the page: the recycling slider gives whole per
    cents, the fuel slider a multiplier. *)
Definition sim_result (df : list Household.row) (recycle_inc_pct : Z)
    (fuel_multiplier : float) : list Scenario.row :=
  simulate_scenario (summarize_routes df) (of_int64 recycle_inc_pct / 100) fuel_multiplier.

(** The value the recycling slider passes on. *)
Definition recycling_increase_of (recycle_inc_pct : Z) : float :=
  of_int64 recycle_inc_pct / 100.

(** The positions of the recycling slider. *)
Definition recycle_inc_positions : list Z := map Z.of_nat (seq 0 51).

(** ** Further vocabulary *)

(** The order [sort_values] puts the routes in. *)
Definition route_le (a b : string) : Prop := String.leb a b = true.

(** Households with a route, and those that [count] sees as well. *)
Definition routed (h : Household.row) : bool :=
  match Household.collection_route h with
  | Some _ => true
  | None => false
  end.

Definition counted (h : Household.row) : bool :=
  match Household.collection_route h, Household.household_id h with
  | Some _, Some _ => true
  | _, _ => false
  end.

Definition sumZ (xs : list Z) : Z := fold_right Z.add 0%Z xs.

(** The seven columns of a summary row that [simulate_scenario] reads. *)
Definition same_scenario_inputs (a b : Summary.row) : Prop :=
  Summary.collection_route a = Summary.collection_route b /\
  Summary.total_households a = Summary.total_households b /\
  Summary.avg_waste_kg_per_day a = Summary.avg_waste_kg_per_day b /\
  Summary.avg_recycling_rate a = Summary.avg_recycling_rate b /\
  Summary.total_distance_km a = Summary.total_distance_km b /\
  Summary.total_labor_cost a = Summary.total_labor_cost b /\
  Summary.total_maintenance_cost a = Summary.total_maintenance_cost b.

(** A summary row whose three recomputed columns hold other numbers. *)
Definition with_stale_costs (fuel total per_kg : float) (s : Summary.row) : Summary.row :=
  {| Summary.collection_route := Summary.collection_route s;
     Summary.total_households := Summary.total_households s;
     Summary.total_population := Summary.total_population s;
     Summary.avg_waste_kg_per_day := Summary.avg_waste_kg_per_day s;
     Summary.avg_recycling_rate := Summary.avg_recycling_rate s;
     Summary.avg_route_length_km := Summary.avg_route_length_km s;
     Summary.avg_route_time_hr := Summary.avg_route_time_hr s;
     Summary.total_distance_km := Summary.total_distance_km s;
     Summary.total_time_hr := Summary.total_time_hr s;
     Summary.fuel_cost_per_km := Summary.fuel_cost_per_km s;
     Summary.labor_cost_per_hour := Summary.labor_cost_per_hour s;
     Summary.maintenance_cost_per_km := Summary.maintenance_cost_per_km s;
     Summary.total_fuel_cost := fuel;
     Summary.total_labor_cost := Summary.total_labor_cost s;
     Summary.total_maintenance_cost := Summary.total_maintenance_cost s;
     Summary.total_operational_cost := total;
     Summary.total_waste_kg_per_day := Summary.total_waste_kg_per_day s;
     Summary.cost_per_kg_waste := per_kg |}.

Definition route_b : string := "Route_B".

(** Two routes: the sample one and a longer one. *)
Definition two_routes_df : list Household.row :=
  sample_df ++
  [ Household.mk (Some 3%Z) (Some route_b) 2 3 0.5 12 2;
    Household.mk (Some 4%Z) (Some route_b) 5 7 0.25 8 1 ].

(** A route whose households have no identifier. *)
Definition unregistered_df : list Household.row :=
  [ Household.mk None (Some route_a) 3 4 0.25 4 0.75;
    Household.mk None (Some route_a) 4 6 0.75 6 1.25 ].

(** * Rounding to binary64

    [SpecFloat] gives the operations of binary64 as programs on mantissas
    and exponents.  This part relates them to the reals: each operation on
    positive finite operands returns the exact result rounded to nearest,
    ties to even, and that rounding is monotone. *)

Module Rounding.
Local Open Scope R_scope.

(** ** Powers of two *)

Definition bpow (e : Z) : R := powerRZ 2 e.

Lemma bpow_gt0 e : 0 < bpow e.
Proof. apply powerRZ_lt. lra. Qed.

Lemma bpow_add a b : bpow (a + b) = bpow a * bpow b.
Proof. apply powerRZ_add. lra. Qed.

Lemma bpow_0 : bpow 0 = 1.
Proof. reflexivity. Qed.

Lemma bpow_1 : bpow 1 = 2.
Proof. unfold bpow. simpl. lra. Qed.

Lemma bpow_succ e : bpow (e + 1) = 2 * bpow e.
Proof. rewrite bpow_add, bpow_1. lra. Qed.


Lemma bpow_IZR n : (0 <= n)%Z -> bpow n = IZR (2 ^ n).
Proof.
  intros H. unfold bpow.
  rewrite <- (Z2Nat.id n H) at 1. rewrite <- pow_powerRZ.
  rewrite pow_IZR. now rewrite Z2Nat.id.
Qed.

Lemma bpow_ge1 n : (0 <= n)%Z -> 1 <= bpow n.
Proof.
  intros H. rewrite bpow_IZR by assumption. apply IZR_le.
  pose proof (Z.pow_pos_nonneg 2 n). lia.
Qed.

Lemma bpow_le a b : (a <= b)%Z -> bpow a <= bpow b.
Proof.
  intros H. pose proof (bpow_add a (b - a)) as E.
  replace (a + (b - a))%Z with b in E by lia. rewrite E.
  pose proof (bpow_gt0 a). pose proof (bpow_ge1 (b - a) ltac:(lia)). nra.
Qed.


Lemma bpow_lt_inv a b : bpow a < bpow b -> (a < b)%Z.
Proof.
  intros H. destruct (Z_lt_le_dec a b) as [L|L]; [assumption|].
  apply bpow_le in L. lra.
Qed.

(** ** Truncation with a round bit and a sticky bit *)

(** Position of a real in the unit interval above an integer: on it,
    strictly below the middle, at the middle, or strictly above. *)
Definition inbetween (m : Z) (l : location) (u : R) : Prop :=
  match l with
  | loc_Exact => u = IZR m
  | loc_Inexact Lt => IZR m < u < IZR m + / 2
  | loc_Inexact Eq => u = IZR m + / 2
  | loc_Inexact Gt => IZR m + / 2 < u < IZR m + 1
  end.

Lemma inbetween_bounds m l u : inbetween m l u -> IZR m <= u < IZR m + 1.
Proof. destruct l as [|[| |]]; simpl; lra. Qed.

(** One step of [shr] halves the real and keeps track of its position. *)
Lemma shr_1_inbetween mrs u :
  (0 <= shr_m mrs)%Z ->
  inbetween (shr_m mrs) (loc_of_shr_record mrs) u ->
  (0 <= shr_m (shr_1 mrs))%Z /\
  inbetween (shr_m (shr_1 mrs)) (loc_of_shr_record (shr_1 mrs)) (u / 2).
Proof.
  destruct mrs as [m r s]. cbn [shr_m]. intros Hm H.
  destruct m as [|p|p]; [| |lia].
  - split; [simpl; lia|]. destruct r, s; cbn in *; lra.
  - destruct p as [p|p|].
    + split; [cbn; lia|].
      destruct r, s; cbn [shr_1 shr_m loc_of_shr_record orb inbetween] in *;
        rewrite IZR_POS_xI in H; lra.
    + split; [cbn; lia|].
      destruct r, s; cbn [shr_1 shr_m loc_of_shr_record orb inbetween] in *;
        rewrite IZR_POS_xO in H; lra.
    + split; [cbn; lia|].
      destruct r, s; cbn [shr_1 shr_m loc_of_shr_record orb inbetween] in *; lra.
Qed.

Lemma iter_pos_shift {A} (f : A -> A) p x :
  iter_pos f p (f x) = f (iter_pos f p x).
Proof.
  revert x. induction p as [p IH|p IH|]; intros x; simpl.
  - now rewrite !IH.
  - now rewrite !IH.
  - reflexivity.
Qed.

Lemma iter_pos_succ {A} (f : A -> A) p x :
  iter_pos f (Pos.succ p) x = f (iter_pos f p x).
Proof.
  revert x. induction p as [p IH|p IH|]; intros x; simpl.
  - rewrite !IH, !iter_pos_shift. reflexivity.
  - rewrite ?iter_pos_shift. reflexivity.
  - reflexivity.
Qed.

(** So do [p] steps, for the real divided by [2^p]. *)
Lemma iter_shr_1_inbetween p mrs u :
  (0 <= shr_m mrs)%Z ->
  inbetween (shr_m mrs) (loc_of_shr_record mrs) u ->
  (0 <= shr_m (iter_pos shr_1 p mrs))%Z /\
  inbetween (shr_m (iter_pos shr_1 p mrs))
            (loc_of_shr_record (iter_pos shr_1 p mrs)) (u / bpow (Zpos p)).
Proof.
  intros Hm H. induction p as [|p IH] using Pos.peano_ind.
  - simpl iter_pos. rewrite bpow_1. now apply shr_1_inbetween.
  - rewrite iter_pos_succ. destruct IH as [IH1 IH2].
    destruct (shr_1_inbetween _ _ IH1 IH2) as [G1 G2]. split; [assumption|].
    rewrite Pos2Z.inj_succ. unfold Z.succ. rewrite bpow_succ.
    replace (u / (2 * bpow (Z.pos p))) with (u / bpow (Z.pos p) / 2); [assumption|].
    pose proof (bpow_gt0 (Z.pos p)). field. lra.
Qed.

Lemma loc_of_shr_record_of_loc m l :
  loc_of_shr_record (shr_record_of_loc m l) = l /\ shr_m (shr_record_of_loc m l) = m.
Proof. destruct l as [|[| |]]; simpl; auto. Qed.

(** Round to nearest, ties to even, as a relation between an integer and
    the real it stands for. *)
Definition RNE (g : Z) (u : R) : Prop :=
  IZR g - / 2 < u < IZR g + / 2 \/
  ((u = IZR g - / 2 \/ u = IZR g + / 2) /\ Z.even g = true).

(** [round_nearest_even] decides from the position alone. *)
Lemma round_nearest_even_RNE m l u :
  inbetween m l u -> RNE (round_nearest_even m l) u.
Proof.
  unfold RNE. destruct l as [|[| |]]; simpl; intros H.
  - left. lra.
  - destruct (Z.even m) eqn:E.
    + right. split; [right; lra|assumption].
    + right. rewrite plus_IZR. split; [left; lra|].
      rewrite Z.even_add, E. reflexivity.
  - left. lra.
  - left. rewrite plus_IZR. lra.
Qed.

(** Two reals in order round to integers in order: at a common tie both
    integers would be even and one apart. *)
Lemma RNE_mono g1 g2 u1 u2 :
  RNE g1 u1 -> RNE g2 u2 -> u1 <= u2 -> (g1 <= g2)%Z.
Proof.
  intros H1 H2 L. destruct (Z_le_gt_dec g1 g2) as [G|G]; [assumption|exfalso].
  assert (IZR g2 + 1 <= IZR g1) as GR.
  { rewrite <- (plus_IZR g2 1). apply IZR_le. lia. }
  destruct H1 as [H1|[H1 E1]], H2 as [H2|[H2 E2]]; try lra.
  assert (IZR g1 = IZR g2 + 1) as Q by (destruct H1, H2; lra).
    rewrite <- (plus_IZR g2 1) in Q. apply eq_IZR in Q. subst g1.
    rewrite Z.even_add, E2 in E1. discriminate.
Qed.

Lemma RNE_lower g u : RNE g u -> IZR g - / 2 <= u.
Proof. intros [H|[[H|H] _]]; lra. Qed.

Lemma RNE_upper g u : RNE g u -> u <= IZR g + / 2.
Proof. intros [H|[[H|H] _]]; lra. Qed.

Lemma RNE_ge (n g : Z) u : RNE g u -> IZR n <= u -> (n <= g)%Z.
Proof.
  intros H L. apply RNE_upper in H.
  destruct (Z_le_gt_dec n g) as [G|G]; [assumption|exfalso].
  assert (IZR g + 1 <= IZR n).
  { rewrite <- (plus_IZR g 1). apply IZR_le. lia. }
  lra.
Qed.

Lemma RNE_le (n g : Z) u : RNE g u -> u <= IZR n -> (g <= n)%Z.
Proof.
  intros H L. apply RNE_lower in H.
  destruct (Z_le_gt_dec g n) as [G|G]; [assumption|exfalso].
  assert (IZR n + 1 <= IZR g).
  { rewrite <- (plus_IZR n 1). apply IZR_le. lia. }
  lra.
Qed.

(** ** Digits *)

Lemma digits2_pos_bounds p :
  (2 ^ (Zpos (digits2_pos p) - 1) <= Zpos p < 2 ^ Zpos (digits2_pos p))%Z.
Proof.
  induction p as [p IH|p IH|]; cbn [digits2_pos].
  - rewrite Pos2Z.inj_succ.
    replace (Z.succ (Z.pos (digits2_pos p)) - 1)%Z with (Z.succ (Z.pos (digits2_pos p) - 1)) by lia.
    rewrite !Z.pow_succ_r by lia. lia.
  - rewrite Pos2Z.inj_succ.
    replace (Z.succ (Z.pos (digits2_pos p)) - 1)%Z with (Z.succ (Z.pos (digits2_pos p) - 1)) by lia.
    rewrite !Z.pow_succ_r by lia. lia.
  - simpl. lia.
Qed.

Lemma Zdigits2_bounds m :
  (0 <= m)%Z ->
  (0 <= Zdigits2 m)%Z /\ (m + 1 <= 2 ^ Zdigits2 m)%Z /\
  (0 < m -> 2 ^ (Zdigits2 m - 1) <= m)%Z.
Proof.
  intros H. destruct m as [|p|p]; [simpl; lia| |lia].
  cbn [Zdigits2]. pose proof (digits2_pos_bounds p). lia.
Qed.

Lemma Zdigits2_le m n :
  (0 < m)%Z -> (m < 2 ^ n)%Z -> (0 <= n)%Z -> (Zdigits2 m <= n)%Z.
Proof.
  intros Hm H Hn. destruct (Zdigits2_bounds m ltac:(lia)) as (D0 & _ & D2).
  specialize (D2 Hm).
  destruct (Z_le_gt_dec (Zdigits2 m) n) as [L|L]; [assumption|exfalso].
  assert (2 ^ n <= 2 ^ (Zdigits2 m - 1))%Z by (apply Z.pow_le_mono_r; lia).
  lia.
Qed.

Lemma Zdigits2_ge m n :
  (2 ^ (n - 1) <= m)%Z -> (0 < n)%Z -> (n <= Zdigits2 m)%Z.
Proof.
  intros H Hn.
  assert (0 < m)%Z as Hm by (pose proof (Z.pow_pos_nonneg 2 (n - 1)); lia).
  destruct (Zdigits2_bounds m ltac:(lia)) as (D0 & D1 & _).
  destruct (Z_le_gt_dec n (Zdigits2 m)) as [L|L]; [assumption|exfalso].
  assert (2 ^ Zdigits2 m <= 2 ^ (n - 1))%Z by (apply Z.pow_le_mono_r; lia).
  lia.
Qed.

(** ** What [binary_round_aux] computes *)

Lemma fexp_eq e : fexp prec emax e = Z.max (e - 53) (-1074).
Proof. reflexivity. Qed.

(** The float that stands for [g * 2^t], where [0 <= g <= 2^53]. *)
Definition canon (g t : Z) : spec_float :=
  if (g <=? 0)%Z then S754_zero false
  else if (g <? 9007199254740992)%Z then
    if (t <=? 971)%Z then S754_finite false (Z.to_pos g) t else S754_infinity false
  else
    if (t + 1 <=? 971)%Z then S754_finite false 4503599627370496 (t + 1)
    else S754_infinity false.

(** [rounds v r]: [r] is the positive real [v] rounded to binary64. *)
Definition rounds (v : R) (r : spec_float) : Prop :=
  exists t g,
    (-1074 <= t)%Z /\
    v < bpow (t + 53) /\
    ((-1074 < t)%Z -> bpow (t + 52) <= v) /\
    RNE g (v / bpow t) /\
    r = canon g t.

Lemma shr_nonpos mrs e n : (n <= 0)%Z -> shr mrs e n = (mrs, e).
Proof. destruct n; simpl; intros; try reflexivity. lia. Qed.

(** The first shift of [binary_round_aux] brings the mantissa to the
    exponent [fexp (digits + E)] and keeps the position of [v]. *)
Lemma shr_fexp_spec M E l v :
  (0 <= M)%Z ->
  (E <= fexp prec emax (Zdigits2 M + E))%Z ->
  inbetween M l (v / bpow E) ->
  exists mrs,
    shr_fexp prec emax M E l = (mrs, fexp prec emax (Zdigits2 M + E)) /\
    (0 <= shr_m mrs)%Z /\
    inbetween (shr_m mrs) (loc_of_shr_record mrs)
              (v / bpow (fexp prec emax (Zdigits2 M + E))).
Proof.
  intros HM HE Hin. unfold shr_fexp.
  set (t := fexp prec emax (Zdigits2 M + E)) in *.
  destruct (loc_of_shr_record_of_loc M l) as [Hl Hm].
  destruct (t - E)%Z as [|p|p] eqn:K.
  - assert (t = E) by lia. subst t. rewrite H. simpl.
    exists (shr_record_of_loc M l). rewrite Hl, Hm. auto.
  - unfold shr. exists (iter_pos shr_1 p (shr_record_of_loc M l)).
    assert (t = E + Z.pos p)%Z as -> by lia.
    split; [reflexivity|].
    destruct (iter_shr_1_inbetween p (shr_record_of_loc M l) (v / bpow E)) as [G1 G2].
    + now rewrite Hm.
    + now rewrite Hl, Hm.
    + split; [assumption|]. rewrite bpow_add.
      replace (v / (bpow E * bpow (Z.pos p))) with (v / bpow E / bpow (Z.pos p)); [assumption|].
      pose proof (bpow_gt0 E). pose proof (bpow_gt0 (Z.pos p)). field. lra.
  - lia.
Qed.

(** The second shift only renormalises a mantissa that rounding carried
    to [2^53]. *)
Lemma second_stage g t :
  (-1074 <= t)%Z -> (0 <= g <= 9007199254740992)%Z ->
  (let '(mrs, e) := shr_fexp prec emax g t loc_Exact in
   match shr_m mrs with
   | Z0 => S754_zero false
   | Zpos m => if (e <=? emax - prec)%Z then S754_finite false m e else S754_infinity false
   | Zneg _ => S754_nan
   end) = canon g t.
Proof.
  intros Ht Hg. unfold canon, shr_fexp.
  destruct (Z.leb_spec g 0) as [G0|G0].
  - assert (g = 0%Z) by lia. subst g. rewrite shr_nonpos; [reflexivity|].
    cbn [Zdigits2]. rewrite fexp_eq. lia.
  - destruct (Z.ltb_spec g 9007199254740992) as [G1|G1].
    + rewrite shr_nonpos.
      * cbn [shr_record_of_loc shr_m]. destruct g as [|p|p]; try lia.
        reflexivity.
      * pose proof (Zdigits2_le g 53 G0 G1 ltac:(lia)). rewrite fexp_eq. lia.
    + assert (g = 9007199254740992%Z) by lia. subst g.
      cbn [Zdigits2 digits2_pos Pos.succ]. rewrite fexp_eq.
      replace (Z.max (54 + t - 53) (-1074) - t)%Z with 1%Z by lia.
      cbn. reflexivity.
Qed.

(** [binary_round_aux] rounds the real located by its arguments. *)
Lemma binary_round_aux_rounds M E l v :
  (0 <= M)%Z ->
  (E <= fexp prec emax (Zdigits2 M + E))%Z ->
  inbetween M l (v / bpow E) ->
  rounds v (binary_round_aux prec emax false M E l).
Proof.
  intros HM HE Hin.
  destruct (shr_fexp_spec M E l v HM HE Hin) as (mrs & Hs & Hm & Hin').
  unfold binary_round_aux. rewrite Hs.
  set (t := fexp prec emax (Zdigits2 M + E)) in *.
  set (g := round_nearest_even (shr_m mrs) (loc_of_shr_record mrs)).
  assert (RNE g (v / bpow t)) as Hg by (now apply round_nearest_even_RNE).
  assert (-1074 <= t)%Z as Ht by (unfold t; rewrite fexp_eq; lia).
  destruct (Zdigits2_bounds M HM) as (D0 & D1 & D2).
  pose proof (bpow_gt0 E) as PE. pose proof (bpow_gt0 t) as Pt.
  apply inbetween_bounds in Hin.
  assert (v = v / bpow E * bpow E) as Hv by (field; lra).
  assert (v < bpow (t + 53)) as Hup.
  { apply Rlt_le_trans with (bpow (Zdigits2 M + E)).
    - rewrite bpow_add, (bpow_IZR _ D0). apply IZR_le in D1.
      rewrite plus_IZR in D1. rewrite Hv at 1. nra.
    - apply bpow_le. unfold t. rewrite fexp_eq. lia. }
  assert ((-1074 < t)%Z -> bpow (t + 52) <= v) as Hlow.
  { intros Hn.
    assert (0 < M)%Z as Mpos.
    { destruct (Z.eq_dec M 0) as [->|]; [|lia]. exfalso.
      clear - Hn HE. unfold t in *. rewrite fexp_eq in *. cbn [Zdigits2] in *. lia. }
    specialize (D2 Mpos).
    assert (1 <= Zdigits2 M)%Z as D3 by (apply Zdigits2_ge; simpl; lia).
    replace (t + 52)%Z with ((Zdigits2 M - 1) + E)%Z
      by (clear - Hn; unfold t in *; rewrite fexp_eq in *; lia).
    rewrite bpow_add, bpow_IZR by lia. apply IZR_le in D2.
    rewrite Hv. nra. }
  exists t, g. repeat split; try assumption.
  apply second_stage; [assumption|]. split.
  - apply (RNE_ge 0 g _ Hg). apply Rmult_le_pos; [|left; now apply Rinv_0_lt_compat].
    pose proof (Rmult_le_pos (IZR M) (bpow E)). apply IZR_le in HM. nra.
  - apply (RNE_le 9007199254740992 g _ Hg).
    rewrite bpow_add, (bpow_IZR 53) in Hup by lia.
    change (2 ^ 53)%Z with 9007199254740992%Z in Hup.
    apply Rlt_le. apply Rmult_lt_reg_r with (bpow t); [assumption|].
    unfold Rdiv. rewrite Rmult_assoc, Rinv_l by lra. lra.
Qed.

(** ** Rounding is monotone *)

Lemma canon_cases g t :
  (0 <= g <= 9007199254740992)%Z ->
  canon g t = S754_zero false \/ canon g t = S754_infinity false \/
  exists m e, canon g t = S754_finite false m e.
Proof.
  intros Hg. unfold canon.
  destruct (g <=? 0)%Z; [now left|right].
  destruct (g <? 9007199254740992)%Z.
  - destruct (t <=? 971)%Z; [right|left]; eauto.
  - destruct (t + 1 <=? 971)%Z; [right|left]; eauto.
Qed.

Lemma SFleb_finite m1 e1 m2 e2 :
  (e1 < e2 \/ (e1 = e2 /\ Zpos m1 <= Zpos m2))%Z ->
  SFleb (S754_finite false m1 e1) (S754_finite false m2 e2) = true.
Proof.
  intros H. unfold SFleb, SFcompare.
  destruct (Z.compare_spec e1 e2) as [E|E|E]; try reflexivity; try lia.
  rewrite Pos.compare_cont_spec. cbn [Pos.switch_Eq].
  destruct (Pos.compare_spec m1 m2) as [Q|Q|Q]; try reflexivity. lia.
Qed.

Lemma canon_leb g1 t1 g2 t2 :
  (0 <= g1 <= 9007199254740992)%Z ->
  (0 <= g2 <= 9007199254740992)%Z ->
  ((t1 = t2 /\ g1 <= g2) \/ (t1 < t2 /\ 4503599627370496 <= g2))%Z ->
  SFleb (canon g1 t1) (canon g2 t2) = true.
Proof.
  intros H1 H2 H. unfold canon.
  destruct (Z.leb_spec g1 0) as [A1|A1].
  - destruct (g2 <=? 0)%Z; [reflexivity|].
    destruct (g2 <? 9007199254740992)%Z.
    + destruct (t2 <=? 971)%Z; reflexivity.
    + destruct (t2 + 1 <=? 971)%Z; reflexivity.
  - destruct (Z.leb_spec g2 0) as [A2|A2]; [lia|].
    destruct (Z.ltb_spec g1 9007199254740992) as [B1|B1];
    destruct (Z.ltb_spec g2 9007199254740992) as [B2|B2].
    + destruct (Z.leb_spec t1 971) as [C1|C1];
      destruct (Z.leb_spec t2 971) as [C2|C2]; try reflexivity; try lia.
      apply SFleb_finite. rewrite !Z2Pos.id by lia. lia.
    + destruct (Z.leb_spec t1 971) as [C1|C1];
      destruct (Z.leb_spec (t2 + 1) 971) as [C2|C2]; try reflexivity; try lia.
      apply SFleb_finite. rewrite !Z2Pos.id by lia. lia.
    + destruct (Z.leb_spec (t1 + 1) 971) as [C1|C1];
      destruct (Z.leb_spec t2 971) as [C2|C2]; try reflexivity; try lia.
      apply SFleb_finite. rewrite !Z2Pos.id by lia. lia.
    + destruct (Z.leb_spec (t1 + 1) 971) as [C1|C1];
      destruct (Z.leb_spec (t2 + 1) 971) as [C2|C2]; try reflexivity; try lia.
      apply SFleb_finite. lia.
Qed.

Lemma rounds_bounds v t g :
  0 < v -> v < bpow (t + 53) -> RNE g (v / bpow t) ->
  (0 <= g <= 9007199254740992)%Z.
Proof.
  intros Hv Hup Hg. pose proof (bpow_gt0 t) as Pt.
  assert (0 < v / bpow t) by (apply Rdiv_lt_0_compat; assumption).
  split.
  - apply (RNE_ge 0 g _ Hg). lra.
  - apply (RNE_le 9007199254740992 g _ Hg).
    rewrite bpow_add, (bpow_IZR 53) in Hup by lia.
    change (2 ^ 53)%Z with 9007199254740992%Z in Hup.
    apply Rlt_le. apply Rmult_lt_reg_r with (bpow t); [assumption|].
    unfold Rdiv. rewrite Rmult_assoc, Rinv_l by lra. lra.
Qed.

Lemma rounds_normal v t g :
  bpow (t + 52) <= v -> RNE g (v / bpow t) -> (4503599627370496 <= g)%Z.
Proof.
  intros Hlow Hg. pose proof (bpow_gt0 t) as Pt.
  apply (RNE_ge 4503599627370496 g _ Hg).
  rewrite bpow_add, (bpow_IZR 52) in Hlow by lia.
  change (2 ^ 52)%Z with 4503599627370496%Z in Hlow.
  apply Rmult_le_reg_r with (bpow t); [assumption|].
  unfold Rdiv. rewrite Rmult_assoc, Rinv_l by lra. lra.
Qed.

(** Reals in order round to floats in order: within one exponent by
    [RNE_mono], across exponents because the smaller float stays at or
    below the power of two that the larger one reaches. *)
Theorem rounds_mono v1 v2 r1 r2 :
  0 < v1 -> v1 <= v2 -> rounds v1 r1 -> rounds v2 r2 -> SFleb r1 r2 = true.
Proof.
  intros P1 L (t1 & g1 & T1 & U1 & L1 & G1 & ->) (t2 & g2 & T2 & U2 & L2 & G2 & ->).
  assert (0 < v2) as P2 by lra.
  pose proof (rounds_bounds v1 t1 g1 P1 U1 G1) as B1.
  pose proof (rounds_bounds v2 t2 g2 P2 U2 G2) as B2.
  assert (t1 <= t2)%Z as T.
  { destruct (Z_le_gt_dec t1 t2) as [?|C]; [assumption|exfalso].
    specialize (L1 ltac:(lia)).
    assert (bpow (t1 + 52) < bpow (t2 + 53)) as Q by lra.
    apply bpow_lt_inv in Q. lia. }
  apply canon_leb; try assumption.
  destruct (Z.eq_dec t1 t2) as [->|N].
  - left. split; [reflexivity|]. apply (RNE_mono g1 g2 _ _ G1 G2).
    pose proof (bpow_gt0 t2) as Pt. unfold Rdiv.
    apply Rmult_le_compat_r; [|assumption]. left. now apply Rinv_0_lt_compat.
  - right. split; [lia|]. apply (rounds_normal v2 t2); [|assumption].
    apply L2. lia.
Qed.

Lemma rounds_cases v r :
  0 < v -> rounds v r ->
  r = S754_zero false \/ r = S754_infinity false \/
  exists m e, r = S754_finite false m e.
Proof.
  intros P (t & g & T & U & L & G & ->).
  apply canon_cases. now apply (rounds_bounds v t g).
Qed.


(** ** Values of finite floats *)

Definition F2R (m : positive) (e : Z) : R := IZR (Zpos m) * bpow e.

Lemma F2R_gt0 m e : 0 < F2R m e.
Proof.
  unfold F2R. apply Rmult_lt_0_compat; [|apply bpow_gt0]. now apply IZR_lt.
Qed.

Lemma bounded_spec m e :
  bounded prec emax m e = true ->
  (e = Z.max (Zpos (digits2_pos m) + e - 53) (-1074) /\ e <= 971)%Z.
Proof.
  unfold bounded, canonical_mantissa. rewrite andb_true_iff, Z.eqb_eq, Z.leb_le.
  rewrite fexp_eq. unfold emax, prec. lia.
Qed.

Lemma bounded_mantissa m e :
  bounded prec emax m e = true ->
  (Zpos m < 9007199254740992 /\ (-1074 < e -> 4503599627370496 <= Zpos m))%Z.
Proof.
  intros H. apply bounded_spec in H. destruct H as [H _].
  pose proof (digits2_pos_bounds m) as [D1 D2].
  assert (Zpos (digits2_pos m) <= 53)%Z as D by lia.
  split.
  - apply Z.lt_le_trans with (1 := D2). change 9007199254740992%Z with (2 ^ 53)%Z.
    apply Z.pow_le_mono_r; lia.
  - intros He. assert (Zpos (digits2_pos m) = 53)%Z as Q by lia.
    rewrite Q in D1. exact D1.
Qed.

Lemma bounded_bpow_min m e :
  bounded prec emax m e = true -> bpow (-1074) <= F2R m e.
Proof.
  intros H. apply bounded_spec in H.
  assert (-1074 <= e)%Z as He by lia. apply bpow_le in He.
  unfold F2R. assert (1 <= IZR (Zpos m)) by (apply IZR_le; lia).
  pose proof (bpow_gt0 e). nra.
Qed.

(** The order of canonical positive floats is the order of their values. *)
Lemma SFleb_F2R m1 e1 m2 e2 :
  bounded prec emax m1 e1 = true -> bounded prec emax m2 e2 = true ->
  SFleb (S754_finite false m1 e1) (S754_finite false m2 e2) = true ->
  F2R m1 e1 <= F2R m2 e2.
Proof.
  intros B1 B2 H.
  pose proof (bounded_mantissa _ _ B1) as [U1 _].
  pose proof (bounded_mantissa _ _ B2) as [_ L2].
  apply bounded_spec in B1, B2.
  unfold SFleb, SFcompare in H. unfold F2R.
  destruct (Z.compare_spec e1 e2) as [E|E|E]; try discriminate.
  - subst e2. rewrite Pos.compare_cont_spec in H. cbn [Pos.switch_Eq] in H.
    destruct (Pos.compare_spec m1 m2) as [Q|Q|Q]; try discriminate.
    + subst. lra.
    + pose proof (bpow_gt0 e1). assert (IZR (Zpos m1) <= IZR (Zpos m2)) by (apply IZR_le; lia).
      nra.
  - specialize (L2 ltac:(lia)).
    apply IZR_lt in U1. apply IZR_le in L2.
    assert (bpow (e1 + 53) <= bpow (e2 + 52)) as Q by (apply bpow_le; lia).
    rewrite !bpow_add, (bpow_IZR 53), (bpow_IZR 52) in Q by lia.
    change (2 ^ 53)%Z with 9007199254740992%Z in Q.
    change (2 ^ 52)%Z with 4503599627370496%Z in Q.
    pose proof (bpow_gt0 e1). pose proof (bpow_gt0 e2). nra.
Qed.

(** ** The operations on positive finite operands *)

(** The product of two canonical floats is the rounded exact product. *)
Lemma SFmul_rounds m1 e1 m2 e2 :
  bounded prec emax m1 e1 = true -> bounded prec emax m2 e2 = true ->
  rounds (F2R m1 e1 * F2R m2 e2)
         (SFmul prec emax (S754_finite false m1 e1) (S754_finite false m2 e2)).
Proof.
  intros B1 B2. cbn [SFmul xorb].
  apply binary_round_aux_rounds.
  - lia.
  - apply bounded_spec in B1, B2. rewrite fexp_eq.
    pose proof (digits2_pos_bounds m1) as [D1 _].
    pose proof (digits2_pos_bounds m2) as [D2 _].
    assert (Zpos (digits2_pos m1) + Zpos (digits2_pos m2) - 1
            <= Zdigits2 (Zpos (m1 * m2)))%Z as D.
    { apply Zdigits2_ge; [|lia].
      replace (Z.pos (digits2_pos m1) + Z.pos (digits2_pos m2) - 1 - 1)%Z
        with ((Z.pos (digits2_pos m1) - 1) + (Z.pos (digits2_pos m2) - 1))%Z by lia.
      rewrite Z.pow_add_r by lia. rewrite Pos2Z.inj_mul.
      apply Z.mul_le_mono_nonneg; try assumption; apply Z.pow_nonneg; lia. }
    lia.
  - cbn [inbetween]. unfold F2R. rewrite Pos2Z.inj_mul, mult_IZR, bpow_add.
    pose proof (bpow_gt0 e1). pose proof (bpow_gt0 e2). field. lra.
Qed.

(** The remainder of a division locates the exact quotient. *)
Lemma new_location_inbetween nb q r :
  (0 <= r < nb)%Z ->
  inbetween q (new_location nb r) (IZR (nb * q + r) / IZR nb).
Proof.
  intros H.
  assert (0 < IZR nb) as Pn by (apply IZR_lt; lia).
  assert (IZR (nb * q + r) / IZR nb = IZR q + IZR r / IZR nb) as ->.
  { rewrite plus_IZR, mult_IZR. field. lra. }
  assert (forall x, (0 < x)%R -> (IZR q < IZR q + x / IZR nb)%R) as Hpos.
  { intros x Hx. pose proof (Rdiv_lt_0_compat x (IZR nb) Hx Pn). lra. }
  assert (forall a b : R, a < b * IZR nb -> a / IZR nb < b) as Hlt.
  { intros a b Hab. apply Rmult_lt_reg_r with (IZR nb); [assumption|].
    unfold Rdiv. rewrite Rmult_assoc, Rinv_l by lra. lra. }
  assert (forall a b : R, b * IZR nb < a -> b < a / IZR nb) as Hgt.
  { intros a b Hab. apply Rmult_lt_reg_r with (IZR nb); [assumption|].
    unfold Rdiv. rewrite Rmult_assoc, Rinv_l by lra. lra. }
  unfold new_location.
  destruct (Z.even nb) eqn:Ev; [unfold new_location_even|unfold new_location_odd];
    (destruct (r =? 0)%Z eqn:Hr;
     [apply Z.eqb_eq in Hr; subst r; cbn [inbetween]; unfold Rdiv; lra|]);
    apply Z.eqb_neq in Hr;
    assert (0 < IZR r) as Pr by (apply IZR_lt; lia);
    assert (IZR r < IZR nb) as Rn by (apply IZR_lt; lia);
    specialize (Hpos _ Pr).
  - destruct (Z.compare_spec (2 * r) nb) as [C|C|C]; cbn [inbetween].
    + rewrite <- C, mult_IZR. field_simplify; lra.
    + apply IZR_lt in C. rewrite mult_IZR in C.
      split; [assumption|]. apply Rplus_lt_compat_l, Hlt. lra.
    + apply IZR_lt in C. rewrite mult_IZR in C. split.
      * apply Rplus_lt_compat_l, Hgt. lra.
      * apply Rplus_lt_compat_l, Hlt. lra.
  - assert (2 * r <> nb)%Z as Ne.
    { intros Q. rewrite <- Q, Z.even_mul in Ev. discriminate. }
    destruct (Z.compare_spec (2 * r + 1) nb) as [C|C|C]; cbn [inbetween].
    + assert (2 * r < nb)%Z as C' by lia. apply IZR_lt in C'. rewrite mult_IZR in C'.
      split; [assumption|]. apply Rplus_lt_compat_l, Hlt. lra.
    + assert (2 * r < nb)%Z as C' by lia. apply IZR_lt in C'. rewrite mult_IZR in C'.
      split; [assumption|]. apply Rplus_lt_compat_l, Hlt. lra.
    + assert (nb < 2 * r)%Z as C' by lia. apply IZR_lt in C'. rewrite mult_IZR in C'.
      split.
      * apply Rplus_lt_compat_l, Hgt. lra.
      * apply Rplus_lt_compat_l, Hlt. lra.
Qed.

Lemma SFdiv_core_binary_spec m1 e1 m2 e2 :
  bounded prec emax m1 e1 = true ->
  let v := F2R m1 e1 / F2R m2 e2 in
  let '(q, e, l) := SFdiv_core_binary prec emax (Zpos m1) e1 (Zpos m2) e2 in
  (0 <= q)%Z /\ (e <= fexp prec emax (Zdigits2 q + e))%Z /\
  inbetween q l (v / bpow e).
Proof.
  intros B1 v. unfold SFdiv_core_binary.
  apply bounded_spec in B1. destruct B1 as [B1 _].
  change (Zpos (digits2_pos m1)) with (Zdigits2 (Zpos m1)) in B1.
  set (d1 := Zdigits2 (Zpos m1)) in *. set (d2 := Zdigits2 (Zpos m2)).
  set (e := Z.min (fexp prec emax (d1 + e1 - (d2 + e2))) (e1 - e2)).
  set (s := (e1 - e2 - e)%Z).
  assert (0 <= s)%Z as Hs by (unfold s, e; lia).
  set (m := match s with
            | Zpos _ => Z.shiftl (Zpos m1) s
            | Z0 => Zpos m1
            | Zneg _ => Z0
            end).
  assert (m = Zpos m1 * 2 ^ s)%Z as Hm.
  { unfold m. destruct s as [|p|p] eqn:S; [lia| |lia].
    now rewrite Z.shiftl_mul_pow2 by lia. }
  pose proof (Z_div_mod m (Zpos m2) ltac:(lia)) as Hdiv.
  destruct (Z.div_eucl m (Zpos m2)) as [q r]. destruct Hdiv as [Hq Hr].
  pose proof (Zdigits2_bounds (Zpos m1) ltac:(lia)) as (_ & _ & L1).
  pose proof (Zdigits2_bounds (Zpos m2) ltac:(lia)) as (P2 & U2 & _).
  specialize (L1 ltac:(lia)). fold d1 in L1. fold d2 in P2, U2.
  assert (1 <= d1)%Z as P1 by (apply Zdigits2_ge; simpl; lia).
  assert (0 <= q)%Z as Q0.
  { assert (0 <= m)%Z by (rewrite Hm; pose proof (Z.pow_nonneg 2 s); lia). nia. }
  split; [assumption|]. split.
  - rewrite fexp_eq. destruct (Z_le_gt_dec e (-1074)) as [?|G]; [lia|].
    assert (e <= d1 + e1 - (d2 + e2) - 53)%Z as Le by (unfold e in *; rewrite fexp_eq in *; lia).
    assert (53 <= Zdigits2 q)%Z; [|lia].
    apply Zdigits2_ge; [|lia].
    assert (2 ^ (53 - 1) * Zpos m2 <= m)%Z as Q.
    { rewrite Hm.
      assert (2 ^ (d1 - 1) * 2 ^ (53 - d1 + d2) <= Zpos m1 * 2 ^ s)%Z as Q1.
      { apply Z.mul_le_mono_nonneg; try assumption.
        - apply Z.pow_nonneg; lia.
        - apply Z.pow_nonneg; lia.
        - apply Z.pow_le_mono_r; unfold s; lia. }
      rewrite <- Z.pow_add_r in Q1 by lia.
      replace (d1 - 1 + (53 - d1 + d2))%Z with (52 + d2)%Z in Q1 by lia.
      rewrite Z.pow_add_r in Q1 by lia.
      assert (0 < 2 ^ 52)%Z by (apply Z.pow_pos_nonneg; lia).
      change (53 - 1)%Z with 52%Z. nia. }
    assert (0 < 2 ^ (53 - 1))%Z by (apply Z.pow_pos_nonneg; lia).
    nia.
  - replace (v / bpow e) with (IZR (Zpos m2 * q + r) / IZR (Zpos m2)).
    + now apply new_location_inbetween.
    + rewrite <- Hq, Hm, mult_IZR, <- (bpow_IZR s Hs). unfold v, F2R.
      assert (bpow e1 = bpow s * bpow e * bpow e2) as ->.
      { rewrite <- !bpow_add. f_equal. unfold s. lia. }
      pose proof (bpow_gt0 e). pose proof (bpow_gt0 e2).
      assert (0 < IZR (Zpos m2)) by (apply IZR_lt; lia).
      field. repeat split; lra.
Qed.

(** The quotient of two floats is the rounded exact quotient. *)
Lemma SFdiv_rounds m1 e1 m2 e2 :
  bounded prec emax m1 e1 = true ->
  rounds (F2R m1 e1 / F2R m2 e2)
         (SFdiv prec emax (S754_finite false m1 e1) (S754_finite false m2 e2)).
Proof.
  intros B1.
  cbn [SFdiv xorb]. pose proof (SFdiv_core_binary_spec m1 e1 m2 e2 B1) as H.
  cbv zeta in H.
  destruct (SFdiv_core_binary prec emax (Zpos m1) e1 (Zpos m2) e2) as [[q e] l].
  destruct H as (H1 & H2 & H3). now apply binary_round_aux_rounds.
Qed.

Lemma Pos_iter_xO m d : Zpos (Pos.iter xO m d) = (Zpos m * 2 ^ Zpos d)%Z.
Proof.
  induction d as [|d IH] using Pos.peano_ind.
  - simpl. lia.
  - rewrite Pos.iter_succ, Pos2Z.inj_succ, Z.pow_succ_r by lia.
    rewrite Pos2Z.inj_xO, IH. lia.
Qed.

Lemma shl_align_spec m e e' :
  let '(m', e'') := shl_align m e e' in
  F2R m' e'' = F2R m e /\ e'' = Z.min e e' /\
  (Zpos (digits2_pos m') + e'' = Zpos (digits2_pos m) + e)%Z.
Proof.
  unfold shl_align. destruct (e' - e)%Z as [|d|d] eqn:D.
  - repeat split; lia.
  - repeat split; lia.
  - assert (e = e' + Zpos d)%Z as -> by lia. split; [|split].
    + unfold F2R. rewrite Pos_iter_xO, mult_IZR, bpow_add, <- bpow_IZR by lia. lra.
    + lia.
    + clear D. induction d as [|d IH] using Pos.peano_ind.
      * cbn [Pos.iter digits2_pos]. lia.
      * rewrite Pos.iter_succ. cbn [digits2_pos]. lia.
Qed.

(** [binary_round] rounds [m * 2^e], whatever the size of [m]. *)
Lemma binary_round_rounds m e :
  rounds (F2R m e) (binary_round prec emax false m e).
Proof.
  unfold binary_round.
  pose proof (shl_align_spec m e (fexp prec emax (Zpos (digits2_pos m) + e))) as H.
  destruct (shl_align m e (fexp prec emax (Zpos (digits2_pos m) + e))) as [mz ez].
  destruct H as (H1 & H2 & H3). rewrite <- H1.
  apply binary_round_aux_rounds.
  - lia.
  - cbn [Zdigits2]. rewrite H3. lia.
  - cbn [inbetween]. unfold F2R. pose proof (bpow_gt0 ez). field. lra.
Qed.

(** Addition of two positive finite floats. *)
Lemma SFadd_rounds m1 e1 m2 e2 :
  rounds (F2R m1 e1 + F2R m2 e2)
         (SFadd prec emax (S754_finite false m1 e1) (S754_finite false m2 e2)).
Proof.
  cbn [SFadd cond_Zopp].
  pose proof (shl_align_spec m1 e1 (Z.min e1 e2)) as H1.
  pose proof (shl_align_spec m2 e2 (Z.min e1 e2)) as H2.
  destruct (shl_align m1 e1 (Z.min e1 e2)) as [n1 f1].
  destruct (shl_align m2 e2 (Z.min e1 e2)) as [n2 f2].
  destruct H1 as (A1 & B1 & _), H2 as (A2 & B2 & _).
  cbn [fst]. rewrite <- Pos2Z.inj_add. cbn [binary_normalize].
  replace (F2R m1 e1 + F2R m2 e2) with (F2R (n1 + n2) (Z.min e1 e2)).
  - apply binary_round_rounds.
  - rewrite <- A1, <- A2. unfold F2R. rewrite Pos2Z.inj_add, plus_IZR.
    replace f1 with (Z.min e1 e2) by lia. replace f2 with (Z.min e1 e2) by lia. lra.
Qed.

(** ** Signs *)

Lemma binary_round_aux_opp m e l :
  binary_round_aux prec emax true m e l
  = SFopp (binary_round_aux prec emax false m e l).
Proof.
  unfold binary_round_aux.
  destruct (shr_fexp prec emax m e l) as [mrs' e'].
  destruct (shr_fexp prec emax _ e' loc_Exact) as [mrs'' e''].
  destruct (shr_m mrs''); try reflexivity.
  destruct (e'' <=? emax - prec)%Z; reflexivity.
Qed.

Lemma binary_round_opp m e :
  binary_round prec emax true m e = SFopp (binary_round prec emax false m e).
Proof.
  unfold binary_round. destruct (shl_align m e _) as [mz ez].
  apply binary_round_aux_opp.
Qed.

(** Non-negative, not NaN. *)
Definition nonneg (r : spec_float) : Prop :=
  r = S754_zero false \/ r = S754_infinity false \/
  exists m e, r = S754_finite false m e.

Lemma rounds_nonneg v r : 0 < v -> rounds v r -> nonneg r.
Proof. apply rounds_cases. Qed.

Lemma SFleb_infinity r : nonneg r -> SFleb r (S754_infinity false) = true.
Proof. intros [->|[->|(m & e & ->)]]; reflexivity. Qed.

Lemma SFleb_zero r : nonneg r -> SFleb (S754_zero false) r = true.
Proof. intros [->|[->|(m & e & ->)]]; reflexivity. Qed.

Lemma SFcompare_finite_Eq s m e r :
  SFcompare (S754_finite s m e) r = Some Eq -> r = S754_finite s m e.
Proof.
  destruct r as [s'|s'| |s' m' e']; simpl; try discriminate.
  - destruct s; discriminate.
  - destruct s'; discriminate.
  - destruct s, s'; try discriminate;
      destruct (Z.compare_spec e e') as [E|E|E]; try discriminate;
      rewrite Pos.compare_cont_spec; cbn [Pos.switch_Eq];
      destruct (Pos.compare_spec m m') as [Q|Q|Q]; try discriminate;
      intros _; now subst.
Qed.

(** ** Monotonicity of the operations on positive operands *)

Definition positive_float (r : spec_float) : Prop :=
  r = S754_infinity false \/
  exists m e, r = S754_finite false m e /\ bounded prec emax m e = true.

Lemma SFmul_positive a b :
  positive_float a -> positive_float b -> nonneg (SFmul prec emax a b).
Proof.
  intros [->|(ma & ea & -> & Ba)] [->|(mb & eb & -> & Bb)];
    try (right; left; reflexivity).
  apply rounds_nonneg with (2 := SFmul_rounds _ _ _ _ Ba Bb).
  apply Rmult_lt_0_compat; apply F2R_gt0.
Qed.

Lemma SFmul_mono a b1 b2 :
  positive_float a -> positive_float b1 -> positive_float b2 ->
  SFleb b1 b2 = true ->
  SFleb (SFmul prec emax a b1) (SFmul prec emax a b2) = true.
Proof.
  intros Ha H1 H2 L.
  pose proof (SFmul_positive a b1 Ha H1) as N1.
  destruct H2 as [->|(m2 & e2 & -> & B2)].
  - replace (SFmul prec emax a (S754_infinity false)) with (S754_infinity false).
    + now apply SFleb_infinity.
    + destruct Ha as [->|(ma & ea & -> & Ba)]; reflexivity.
  - destruct H1 as [->|(m1 & e1 & -> & B1)]; [discriminate|].
    destruct Ha as [->|(ma & ea & -> & Ba)]; [reflexivity|].
    apply rounds_mono with (3 := SFmul_rounds _ _ _ _ Ba B1)
                           (4 := SFmul_rounds _ _ _ _ Ba B2).
    + apply Rmult_lt_0_compat; apply F2R_gt0.
    + apply Rmult_le_compat_l; [left; apply F2R_gt0|].
      now apply SFleb_F2R.
Qed.

Lemma SFdiv_nonneg mc ec p :
  bounded prec emax mc ec = true -> nonneg p ->
  nonneg (SFdiv prec emax (S754_finite false mc ec) p).
Proof.
  intros Bc [->|[->|(m & e & ->)]].
  - right; left; reflexivity.
  - left; reflexivity.
  - apply rounds_nonneg with (2 := SFdiv_rounds _ _ _ _ Bc).
    apply Rdiv_lt_0_compat; apply F2R_gt0.
Qed.

Lemma SFdiv_antimono mc ec p1 p2 :
  bounded prec emax mc ec = true ->
  nonneg p1 -> nonneg p2 ->
  valid_binary p1 = true -> valid_binary p2 = true ->
  SFleb p1 p2 = true ->
  SFleb (SFdiv prec emax (S754_finite false mc ec) p2)
        (SFdiv prec emax (S754_finite false mc ec) p1) = true.
Proof.
  intros Bc N1 N2 V1 V2 L.
  pose proof (SFdiv_nonneg mc ec p1 Bc N1) as D1.
  pose proof (SFdiv_nonneg mc ec p2 Bc N2) as D2.
  destruct N2 as [->|[->|(m2 & e2 & ->)]].
  - destruct N1 as [->|[->|(m1 & e1 & ->)]]; try discriminate. reflexivity.
  - now apply SFleb_zero.
  - destruct N1 as [->|[->|(m1 & e1 & ->)]]; try discriminate.
    + now apply SFleb_infinity.
    + cbn [valid_binary] in V1, V2.
      apply rounds_mono with (3 := SFdiv_rounds mc ec m2 e2 Bc)
                             (4 := SFdiv_rounds mc ec m1 e1 Bc).
      * apply Rdiv_lt_0_compat; apply F2R_gt0.
      * pose proof (SFleb_F2R _ _ _ _ V1 V2 L) as Q.
        pose proof (F2R_gt0 m1 e1) as P1. pose proof (F2R_gt0 m2 e2) as P2.
        pose proof (F2R_gt0 mc ec) as Pc.
        unfold Rdiv. apply Rmult_le_compat_l; [lra|].
        apply Rinv_le_contravar; assumption.
Qed.

(** ** The error of a rounding *)



End Rounding.

Import Rounding.

(** * Facts about binary64 *)

(** ** Special values through [Prim2SF] *)

Lemma SFcompare_refl (x : spec_float) :
  x <> S754_nan -> SFcompare x x = Some Eq.
Proof.
  destruct x as [s|s| |s m e]; simpl; intros H; try congruence.
  - now destruct s.
  - rewrite Z.compare_refl, Pos.compare_cont_refl. now destruct s.
Qed.

Lemma is_nan_Prim2SF (x : float) :
  is_nan x = true <-> Prim2SF x = S754_nan.
Proof.
  unfold is_nan. rewrite eqb_spec. unfold SFeqb.
  destruct (Prim2SF x) eqn:E; simpl; split; intros H; try congruence; try discriminate.
  - now destruct s.
  - rewrite Z.compare_refl, Pos.compare_cont_refl in H. now destruct s.
Qed.

Lemma is_nan_false_Prim2SF (x : float) :
  is_nan x = false <-> Prim2SF x <> S754_nan.
Proof.
  rewrite <- is_nan_Prim2SF. destruct (is_nan x); split; congruence.
Qed.

Lemma is_zero_Prim2SF (x : float) :
  is_zero x = true <-> exists s, Prim2SF x = S754_zero s.
Proof.
  unfold is_zero. rewrite eqb_spec. unfold SFeqb.
  change (Prim2SF zero) with (S754_zero false).
  destruct (Prim2SF x) as [s|s| |s m e]; simpl; split; intros H;
    try discriminate; try (destruct H; discriminate); eauto;
    destruct s; discriminate.
Qed.

Lemma is_infinity_Prim2SF (x : float) :
  is_infinity x = true <-> exists s, Prim2SF x = S754_infinity s.
Proof.
  unfold is_infinity. rewrite eqb_spec, abs_spec. unfold SFeqb.
  change (Prim2SF infinity) with (S754_infinity false).
  destruct (Prim2SF x) as [s|s| |s m e]; simpl; split; intros H;
    try discriminate; try (destruct H; discriminate); eauto.
Qed.

(** Division by a zero never raises and never gives a finite number. *)
Lemma div_by_zero_not_finite (x d : float) :
  is_zero d = true -> is_finite (x / d) = false.
Proof.
  intros Hd. apply is_zero_Prim2SF in Hd. destruct Hd as [s Hd].
  unfold is_finite. apply negb_false_iff, orb_true_iff.
  pose proof (div_spec x d) as H. rewrite Hd in H.
  destruct (Prim2SF x) as [sx|sx| |sx mx ex]; simpl in H.
  - left. now apply is_nan_Prim2SF.
  - right. apply is_infinity_Prim2SF. eauto.
  - left. now apply is_nan_Prim2SF.
  - right. apply is_infinity_Prim2SF. eauto.
Qed.

Lemma Prim2SF_bounded x s m e :
  Prim2SF x = S754_finite s m e -> bounded prec emax m e = true.
Proof. intros H. pose proof (Prim2SF_valid x) as V. now rewrite H in V. Qed.

Lemma Prim2SF_positive x : (0 <? x) = true -> positive_float (Prim2SF x).
Proof.
  rewrite ltb_spec. change (Prim2SF 0) with (S754_zero false).
  intros H. destruct (Prim2SF x) as [s|s| |s m e] eqn:E; try discriminate.
  - left. now destruct s.
  - right. exists m, e. destruct s; try discriminate.
    split; [reflexivity|]. now apply (Prim2SF_bounded x false).
Qed.

Lemma positive_float_nonneg r : positive_float r -> nonneg r.
Proof. intros [->|(m & e & -> & _)]; [right; left|right; right]; eauto. Qed.

Lemma SFltb_positive a b :
  positive_float a -> valid_binary b = true -> SFltb a b = true ->
  positive_float b /\ SFleb a b = true.
Proof.
  intros Ha Vb H. unfold SFltb in H. unfold SFleb.
  destruct (SFcompare a b) as [[| |]|] eqn:C; try discriminate.
  split; [|reflexivity].
  destruct Ha as [->|(m & e & -> & Ba)].
  - destruct b as [s|s| |s m e]; simpl in C; try discriminate.
    destruct s; discriminate.
  - destruct b as [s|s| |s m' e']; simpl in C; try discriminate.
    + destruct s; [discriminate|]. now left.
    + destruct s; [discriminate|]. right. eauto.
Qed.

(** For positive operands, [c / (t * f)] does not grow with [f]. *)
Theorem div_mul_antimono c t f1 f2 :
  (0 <? t) = true -> (0 <? c) = true -> is_infinity c = false ->
  (0 <? f1) = true -> (f1 <? f2) = true ->
  (c / (t * f2) <=? c / (t * f1)) = true.
Proof.
  intros Ht Hc Hfin H1 H12.
  apply Prim2SF_positive in Ht, Hc, H1.
  rewrite ltb_spec in H12.
  destruct (SFltb_positive _ _ H1 (Prim2SF_valid f2) H12) as [H2 L].
  rewrite leb_spec, !div_spec.
  destruct Hc as [Hc|(mc & ec & Hc & Bc)].
  - exfalso. assert (is_infinity c = true); [|congruence].
    unfold is_infinity. rewrite eqb_spec, abs_spec, Hc. reflexivity.
  - rewrite Hc. apply SFdiv_antimono; try assumption.
    + rewrite mul_spec. now apply SFmul_positive.
    + rewrite mul_spec. now apply SFmul_positive.
    + apply Prim2SF_valid.
    + apply Prim2SF_valid.
    + rewrite !mul_spec. now apply SFmul_mono.
Qed.

Lemma rounds_one : rounds 1%R (Prim2SF 1).
Proof.
  exists (-52)%Z, 4503599627370496%Z. repeat split.
  - lia.
  - change (-52 + 53)%Z with 1%Z. rewrite bpow_1. lra.
  - intros _. change (-52 + 52)%Z with 0%Z. rewrite bpow_0. lra.
  - left. pose proof (bpow_add 52 (-52)) as Q. change (52 + -52)%Z with 0%Z in Q.
    rewrite bpow_0, (bpow_IZR 52) in Q by lia.
    change (2 ^ 52)%Z with 4503599627370496%Z in Q.
    pose proof (bpow_gt0 (-52)) as P.
    replace (1 / bpow (-52))%R with (IZR 4503599627370496).
    + lra.
    + field_simplify_eq; lra.
Qed.

Lemma Prim2SF_one : Prim2SF 1 = S754_finite false 4503599627370496 (-52).
Proof. vm_compute. reflexivity. Qed.

Lemma F2R_one : F2R 4503599627370496 (-52) = 1%R.
Proof.
  unfold F2R. pose proof (bpow_add 52 (-52)) as Q. change (52 + -52)%Z with 0%Z in Q.
  rewrite bpow_0, (bpow_IZR 52) in Q by lia.
  change (2 ^ 52)%Z with 4503599627370496%Z in Q. lra.
Qed.

Lemma SFleb_antisym_finite m e r :
  SFleb (S754_finite false m e) r = true -> SFleb r (S754_finite false m e) = true ->
  r = S754_finite false m e.
Proof.
  unfold SFleb. intros H1 H2.
  destruct (SFcompare (S754_finite false m e) r) as [[| |]|] eqn:C; try discriminate.
  - now apply SFcompare_finite_Eq in C.
  - exfalso. destruct r as [s|s| |s m' e']; cbn [SFcompare] in *; try discriminate.
    + destruct s; discriminate.
    + destruct s; [discriminate|].
      destruct (Z.compare_spec e e') as [A|A|A];
        destruct (Z.compare_spec e' e) as [A'|A'|A']; try discriminate; try lia.
      rewrite Pos.compare_cont_spec in *. cbn [Pos.switch_Eq] in *.
      destruct (Pos.compare_spec m m') as [Q|Q|Q];
        destruct (Pos.compare_spec m' m) as [Q'|Q'|Q']; try discriminate; lia.
Qed.

(** Adding one to a positive number and capping at one gives exactly one. *)
Theorem minimum_add_one x :
  (0 <? x) = true -> np_minimum (x + 1) 1 = 1.
Proof.
  intros Hx. apply Prim2SF_positive in Hx.
  assert (nonneg (Prim2SF (x + 1)) /\ SFleb (Prim2SF 1) (Prim2SF (x + 1)) = true) as [N L].
  { rewrite add_spec, Prim2SF_one.
    destruct Hx as [->|(m & e & -> & B)].
    - split; [right; left|]; reflexivity.
    - pose proof (SFadd_rounds m e 4503599627370496 (-52)) as R.
      pose proof F2R_one as Q. pose proof rounds_one as R1.
      rewrite Prim2SF_one in R1.
      pose proof (F2R_gt0 m e) as P. split.
      + apply rounds_nonneg with (2 := R). lra.
      + apply rounds_mono with (3 := R1) (4 := R); lra. }
  unfold np_minimum.
  assert (is_nan (x + 1) = false) as ->.
  { destruct (is_nan (x + 1)) eqn:E; [|reflexivity].
    apply is_nan_Prim2SF in E. rewrite E in N.
    destruct N as [N|[N|(m & e & N)]]; discriminate. }
  rewrite orb_false_r. destruct (x + 1 <=? 1) eqn:E; [|reflexivity].
  rewrite leb_spec in E. apply Prim2SF_inj.
  rewrite Prim2SF_one in *. now apply SFleb_antisym_finite.
Qed.

(** ** The sign of zero results *)




(** ** Comparisons *)

Lemma SFcompare_antisym a b :
  SFcompare b a = option_map CompOpp (SFcompare a b).
Proof.
  destruct a as [s|s| |s m e], b as [s'|s'| |s' m' e']; cbn [SFcompare option_map];
    try reflexivity; try (destruct s; reflexivity); try (destruct s'; reflexivity);
    try (destruct s, s'; reflexivity).
  destruct s, s'; cbn [CompOpp]; try reflexivity;
    rewrite (Z.compare_antisym e e'), (Pos.compare_cont_spec m' m),
      (Pos.compare_cont_spec m m'), (Pos.compare_antisym m m'); cbn [Pos.switch_Eq];
    destruct (e ?= e')%Z; cbn [CompOpp]; try reflexivity;
    destruct (m ?= m')%positive; reflexivity.
Qed.

(** [np_minimum] is the smaller operand whenever the two compare. *)
Lemma np_minimum_le x y : (x <=? y) = true -> np_minimum x y = x.
Proof. unfold np_minimum. now intros ->. Qed.

Lemma np_minimum_gt x y : (y <? x) = true -> np_minimum x y = y.
Proof.
  unfold np_minimum. rewrite ltb_spec, leb_spec. unfold SFltb, SFleb.
  rewrite (SFcompare_antisym (Prim2SF y) (Prim2SF x)).
  destruct (SFcompare (Prim2SF y) (Prim2SF x)) as [[| |]|] eqn:C; try discriminate.
  intros _. cbn [option_map CompOpp orb].
  destruct (is_nan x) eqn:N; [|reflexivity].
  apply is_nan_Prim2SF in N. rewrite N in C.
  destruct (Prim2SF y); discriminate.
Qed.

(** * Values of non-negative floats

    Sums, products and quotients of the pipeline work on lengths, times,
    rates and costs.  For those the order of the results follows the order
    of the exact values, zeros and infinities included. *)

Module Values.
Local Open Scope R_scope.

(** A zero of either sign, or a canonical positive finite float. *)
Definition fz (r : spec_float) : Prop :=
  (exists s, r = S754_zero s) \/
  exists m e, r = S754_finite false m e /\ bounded prec emax m e = true.

(** The floats that compare at or above zero. *)
Definition nn (r : spec_float) : Prop := fz r \/ r = S754_infinity false.

Definition val (r : spec_float) : R :=
  match r with
  | S754_finite false m e => F2R m e
  | S754_finite true m e => - F2R m e
  | _ => 0
  end.

(** [rep v r]: [r] is what an operation returns when its exact result is the
    non-negative real [v]. *)
Definition rep (v : R) (r : spec_float) : Prop :=
  (v = 0 /\ exists s, r = S754_zero s) \/ (0 < v /\ rounds v r).

Lemma val_fz r : fz r -> 0 <= val r.
Proof.
  intros [[s ->]|(m & e & -> & _)]; cbn [val]; [lra|].
  left. apply F2R_gt0.
Qed.

Lemma fz_valid r : fz r -> valid_binary r = true.
Proof. intros [[s ->]|(m & e & -> & B)]; [reflexivity|exact B]. Qed.

Lemma nn_cases r :
  valid_binary r = true ->
  (exists s, r = S754_zero s) \/ r = S754_infinity false \/
  (exists m e, r = S754_finite false m e) -> nn r.
Proof.
  intros V [[s ->]|[->|(m & e & ->)]].
  - left. left. eauto.
  - now right.
  - left. right. eauto.
Qed.

Lemma SFleb_zero_l s r : nn r -> SFleb (S754_zero s) r = true.
Proof. intros [[[s' ->]|(m & e & -> & _)]| ->]; reflexivity. Qed.

Lemma SFleb_inf_r r : nn r -> SFleb r (S754_infinity false) = true.
Proof. intros [[[s' ->]|(m & e & -> & _)]| ->]; reflexivity. Qed.

(** A canonical float is the rounding of its own value. *)
Lemma rounds_self m e :
  bounded prec emax m e = true -> rounds (F2R m e) (S754_finite false m e).
Proof.
  intros B. pose proof (bounded_mantissa m e B) as [U L].
  apply bounded_spec in B. destruct B as [B1 B2].
  pose proof (bpow_gt0 e) as Pe.
  exists e, (Zpos m). repeat split.
  - lia.
  - unfold F2R. rewrite bpow_add, (bpow_IZR 53) by lia.
    change (2 ^ 53)%Z with 9007199254740992%Z. apply IZR_lt in U. nra.
  - intros He. specialize (L He). unfold F2R.
    rewrite bpow_add, (bpow_IZR 52) by lia.
    change (2 ^ 52)%Z with 4503599627370496%Z. apply IZR_le in L. nra.
  - left. unfold F2R.
    replace (IZR (Zpos m) * bpow e / bpow e) with (IZR (Zpos m)) by (field; lra).
    lra.
  - unfold canon. destruct (Z.leb_spec (Zpos m) 0) as [A|A]; [lia|].
    destruct (Z.ltb_spec (Zpos m) 9007199254740992) as [A'|A']; [|lia].
    destruct (Z.leb_spec e 971) as [A''|A'']; [|lia]. reflexivity.
Qed.

Lemma rep_self r : fz r -> rep (val r) r.
Proof.
  intros [[s ->]|(m & e & -> & B)]; cbn [val].
  - left. eauto.
  - right. split; [apply F2R_gt0|now apply rounds_self].
Qed.

Lemma rep_nonneg v r : rep v r -> 0 <= v.
Proof. intros [[-> _]|[H _]]; lra. Qed.

Lemma rep_cases v r :
  rep v r ->
  (exists s, r = S754_zero s) \/ r = S754_infinity false \/
  exists m e, r = S754_finite false m e.
Proof.
  intros [[_ [s ->]]|[P R]]; [eauto|].
  destruct (rounds_cases v r P R) as [->|[->|H]]; eauto.
Qed.

Lemma rep_nn v r : rep v r -> valid_binary r = true -> nn r.
Proof. intros H V. apply nn_cases; [assumption|]. now apply (rep_cases v). Qed.

(** Exact results in order give floats in order. *)
Lemma rep_mono v1 v2 r1 r2 :
  rep v1 r1 -> rep v2 r2 -> v1 <= v2 -> SFleb r1 r2 = true.
Proof.
  intros H1 H2 L. pose proof (rep_cases v2 r2 H2) as C2.
  destruct H1 as [[-> [s1 ->]]|[P1 R1]].
  - destruct C2 as [[s ->]|[->|(m & e & ->)]]; reflexivity.
  - destruct H2 as [[-> _]|[P2 R2]]; [lra|].
    now apply (rounds_mono v1 v2).
Qed.

(** ** The order of floats is the order of their values *)

Lemma SFcompare_F2R_Lt m1 e1 m2 e2 :
  bounded prec emax m1 e1 = true -> bounded prec emax m2 e2 = true ->
  SFcompare (S754_finite false m1 e1) (S754_finite false m2 e2) = Some Lt ->
  F2R m1 e1 < F2R m2 e2.
Proof.
  intros B1 B2 H.
  pose proof (bounded_mantissa _ _ B1) as [U1 _].
  pose proof (bounded_mantissa _ _ B2) as [_ L2].
  apply bounded_spec in B1, B2.
  cbn [SFcompare] in H. unfold F2R.
  destruct (Z.compare_spec e1 e2) as [E|E|E]; try discriminate.
  - subst e2. rewrite Pos.compare_cont_spec in H. cbn [Pos.switch_Eq] in H.
    destruct (Pos.compare_spec m1 m2) as [Q|Q|Q]; try discriminate.
    pose proof (bpow_gt0 e1). assert (IZR (Zpos m1) < IZR (Zpos m2)) by (apply IZR_lt; lia).
    nra.
  - specialize (L2 ltac:(lia)).
    apply IZR_lt in U1. apply IZR_le in L2.
    assert (bpow (e1 + 53) <= bpow (e2 + 52)) as Q by (apply bpow_le; lia).
    rewrite !bpow_add, (bpow_IZR 53), (bpow_IZR 52) in Q by lia.
    change (2 ^ 53)%Z with 9007199254740992%Z in Q.
    change (2 ^ 52)%Z with 4503599627370496%Z in Q.
    pose proof (bpow_gt0 e1). pose proof (bpow_gt0 e2). nra.
Qed.

Lemma SFleb_val a b : fz a -> fz b -> (SFleb a b = true <-> val a <= val b).
Proof.
  intros [[sa ->]|(ma & ea & -> & Ba)] [[sb ->]|(mb & eb & -> & Bb)]; cbn [val].
  - split; [lra|reflexivity].
  - pose proof (F2R_gt0 mb eb). split; [lra|reflexivity].
  - pose proof (F2R_gt0 ma ea). split; [discriminate|lra].
  - split; [now apply SFleb_F2R|].
    intros L. unfold SFleb.
    destruct (SFcompare (S754_finite false ma ea) (S754_finite false mb eb))
      as [[| |]|] eqn:C; try reflexivity; exfalso.
    + pose proof (SFcompare_antisym (S754_finite false ma ea) (S754_finite false mb eb)) as A.
      rewrite C in A. cbn [option_map CompOpp] in A.
      pose proof (SFcompare_F2R_Lt _ _ _ _ Bb Ba A). lra.
    + cbn [SFcompare] in C. destruct (ea ?= eb)%Z; discriminate.
Qed.


(** ** Operations on zeros and positive finite floats *)

Lemma SFmul_rep a b : fz a -> fz b -> rep (val a * val b) (SFmul prec emax a b).
Proof.
  intros [[sa ->]|(ma & ea & -> & Ba)] [[sb ->]|(mb & eb & -> & Bb)]; cbn [val].
  - left. split; [lra|]. cbn. eauto.
  - left. split; [lra|]. cbn. eauto.
  - left. split; [lra|]. cbn. eauto.
  - right. split; [apply Rmult_lt_0_compat; apply F2R_gt0|now apply SFmul_rounds].
Qed.

Lemma SFadd_rep a b : fz a -> fz b -> rep (val a + val b) (SFadd prec emax a b).
Proof.
  intros [[sa ->]|(ma & ea & -> & Ba)] [[sb ->]|(mb & eb & -> & Bb)]; cbn [val].
  - left. split; [lra|]. destruct sa, sb; cbn; eauto.
  - right. rewrite Rplus_0_l. split; [apply F2R_gt0|]. cbn [SFadd]. now apply rounds_self.
  - right. rewrite Rplus_0_r. split; [apply F2R_gt0|]. cbn [SFadd]. now apply rounds_self.
  - right. pose proof (F2R_gt0 ma ea). pose proof (F2R_gt0 mb eb).
    split; [lra|apply SFadd_rounds].
Qed.

Lemma SFmul_comm a b : SFmul prec emax a b = SFmul prec emax b a.
Proof.
  destruct a as [sa|sa| |sa ma ea], b as [sb|sb| |sb mb eb]; cbn [SFmul];
    try reflexivity; try (now rewrite xorb_comm).
  now rewrite xorb_comm, Pos.mul_comm, Z.add_comm.
Qed.

(** Subtraction of a smaller canonical float from a larger one. *)
Lemma SFsub_rep ma ea b :
  bounded prec emax ma ea = true -> fz b -> val b <= F2R ma ea ->
  rep (F2R ma ea - val b) (SFsub prec emax (S754_finite false ma ea) b).
Proof.
  intros Ba [[sb ->]|(mb & eb & -> & Bb)]; cbn [val]; intros L.
  - right. rewrite Rminus_0_r. split; [apply F2R_gt0|]. cbn [SFsub]. now apply rounds_self.
  - cbn [SFsub cond_Zopp].
    pose proof (shl_align_spec ma ea (Z.min ea eb)) as H1.
    pose proof (shl_align_spec mb eb (Z.min ea eb)) as H2.
    destruct (shl_align ma ea (Z.min ea eb)) as [n1 f1].
    destruct (shl_align mb eb (Z.min ea eb)) as [n2 f2].
    destruct H1 as (A1 & B1 & _), H2 as (A2 & B2 & _). cbn [fst].
    assert (f1 = Z.min ea eb) as -> by lia. assert (f2 = Z.min ea eb) as -> by lia.
    set (ez := Z.min ea eb) in *. pose proof (bpow_gt0 ez) as Pz.
    assert (F2R ma ea - F2R mb eb = IZR (Zpos n1 - Zpos n2) * bpow ez) as Q.
    { rewrite <- A1, <- A2. unfold F2R. rewrite minus_IZR. lra. }
    rewrite Q. destruct (Zpos n1 - Zpos n2)%Z as [|p|p] eqn:D; cbn [binary_normalize].
    + left. split; [lra|eauto].
    + right. split.
      * apply Rmult_lt_0_compat; [apply IZR_lt; lia|assumption].
      * apply binary_round_rounds.
    + exfalso. assert (IZR (Zneg p) < 0) by (apply IZR_lt; lia). nra.
Qed.

(** ** With infinities *)

Lemma SFadd_nn a b :
  nn a -> nn b -> valid_binary (SFadd prec emax a b) = true ->
  nn (SFadd prec emax a b).
Proof.
  intros [Fa| ->] [Fb| ->] V.
  - apply (rep_nn _ _ (SFadd_rep a b Fa Fb) V).
  - destruct Fa as [[sa ->]|(ma & ea & -> & Ba)]; now right.
  - destruct Fb as [[sb ->]|(mb & eb & -> & Bb)]; now right.
  - now right.
Qed.

Lemma SFadd_mono a1 a2 b :
  nn a1 -> nn a2 -> nn b ->
  valid_binary (SFadd prec emax a1 b) = true ->
  SFleb a1 a2 = true ->
  SFleb (SFadd prec emax a1 b) (SFadd prec emax a2 b) = true.
Proof.
  intros N1 N2 Nb V1 L.
  pose proof (SFadd_nn a1 b N1 Nb V1) as R1.
  destruct Nb as [Fb| ->].
  - destruct N2 as [F2| ->].
    + destruct N1 as [F1| ->].
      * apply (rep_mono _ _ _ _ (SFadd_rep a1 b F1 Fb) (SFadd_rep a2 b F2 Fb)).
        apply (SFleb_val a1 a2 F1 F2) in L. lra.
      * destruct F2 as [[s2 ->]|(m2 & e2 & -> & B2)]; discriminate.
    + replace (SFadd prec emax (S754_infinity false) b) with (S754_infinity false).
      * now apply SFleb_inf_r.
      * destruct Fb as [[sb ->]|(mb & eb & -> & Bb)]; reflexivity.
  - replace (SFadd prec emax a2 (S754_infinity false)) with (S754_infinity false).
    + now apply SFleb_inf_r.
    + destruct N2 as [[[s2 ->]|(m2 & e2 & -> & B2)]| ->]; reflexivity.
Qed.

Lemma SFmul_nn_finite a b :
  fz a -> fz b -> valid_binary (SFmul prec emax a b) = true ->
  nn (SFmul prec emax a b).
Proof. intros Fa Fb V. apply (rep_nn _ _ (SFmul_rep a b Fa Fb) V). Qed.

(** Multiplication by a zero or positive finite factor keeps the order of
    finite non-negative floats. *)
Lemma SFmul_mono_finite a b1 b2 :
  fz a -> fz b1 -> fz b2 -> SFleb b1 b2 = true ->
  SFleb (SFmul prec emax a b1) (SFmul prec emax a b2) = true.
Proof.
  intros Fa F1 F2 L.
  apply (rep_mono _ _ _ _ (SFmul_rep a b1 Fa F1) (SFmul_rep a b2 Fa F2)).
  apply (SFleb_val b1 b2 F1 F2) in L. pose proof (val_fz a Fa). nra.
Qed.

(** A positive finite float divided by floats in order: quotients in the
    opposite order; divided into floats in order: quotients in order. *)
Lemma SFdiv_mono m1 e1 m2 e2 p :
  bounded prec emax m1 e1 = true -> bounded prec emax m2 e2 = true ->
  nonneg p ->
  SFleb (S754_finite false m1 e1) (S754_finite false m2 e2) = true ->
  SFleb (SFdiv prec emax (S754_finite false m1 e1) p)
        (SFdiv prec emax (S754_finite false m2 e2) p) = true.
Proof.
  intros B1 B2 [->|[->|(m & e & ->)]] L; try reflexivity.
  apply rounds_mono with (3 := SFdiv_rounds m1 e1 m e B1)
                         (4 := SFdiv_rounds m2 e2 m e B2).
  - apply Rdiv_lt_0_compat; apply F2R_gt0.
  - pose proof (SFleb_F2R _ _ _ _ B1 B2 L). pose proof (F2R_gt0 m e).
    unfold Rdiv. apply Rmult_le_compat_r; [|assumption].
    left. now apply Rinv_0_lt_compat.
Qed.

(** ** Strict order *)









End Values.

Import Values.

(** * Order and sign of binary64 results *)

Lemma leb_zero_nn x : (0 <=? x) = true -> nn (Prim2SF x).
Proof.
  rewrite leb_spec. change (Prim2SF 0) with (S754_zero false). intros H.
  apply nn_cases; [apply Prim2SF_valid|].
  destruct (Prim2SF x) as [s|s| |s m e]; try discriminate; eauto.
  - right. left. now destruct s.
  - right. right. destruct s; [discriminate|eauto].
Qed.

Lemma nn_leb_zero x : nn (Prim2SF x) -> (0 <=? x) = true.
Proof.
  rewrite leb_spec. change (Prim2SF 0) with (S754_zero false). apply SFleb_zero_l.
Qed.

Lemma SFleb_nn a b :
  nn a -> valid_binary b = true -> SFleb a b = true -> nn b.
Proof.
  intros Na Vb L. apply nn_cases; [assumption|].
  destruct b as [s|s| |s m e]; eauto.
  - right. left. destruct s; [|reflexivity].
    destruct Na as [[[sa ->]|(ma & ea & -> & _)]| ->]; discriminate.
  - destruct Na as [[[sa ->]|(ma & ea & -> & _)]| ->]; discriminate.
  - right. right. destruct s; [|eauto].
    destruct Na as [[[sa ->]|(ma & ea & -> & _)]| ->]; discriminate.
Qed.

Lemma nn_not_nan x : nn (Prim2SF x) -> is_nan x = false.
Proof.
  intros N. apply is_nan_false_Prim2SF.
  destruct N as [[[s ->]|(m & e & -> & _)]| ->]; discriminate.
Qed.

Lemma finite_nn_fz x :
  nn (Prim2SF x) -> is_infinity x = false -> fz (Prim2SF x).
Proof.
  intros [F|E] H; [assumption|exfalso].
  assert (is_infinity x = true); [|congruence].
  apply is_infinity_Prim2SF. eauto.
Qed.

Lemma SFleb_finite_fz a b : nn a -> fz b -> SFleb a b = true -> fz a.
Proof.
  intros [F| ->] Fb L; [assumption|].
  destruct Fb as [[s ->]|(m & e & -> & _)]; discriminate.
Qed.

Lemma SFadd_comm a b : SFadd prec emax a b = SFadd prec emax b a.
Proof.
  destruct a as [sa|sa| |sa ma ea], b as [sb|sb| |sb mb eb]; cbn [SFadd];
    try reflexivity; try (destruct sa, sb; reflexivity).
  now rewrite Z.min_comm, Z.add_comm.
Qed.

Lemma add_comm x y : x + y = y + x.
Proof. apply Prim2SF_inj. rewrite !add_spec. apply SFadd_comm. Qed.

Lemma mul_comm x y : x * y = y * x.
Proof. apply Prim2SF_inj. rewrite !mul_spec. apply SFmul_comm. Qed.

(** Adding a non-negative number keeps the order of non-negative numbers. *)
Lemma add_mono_r x1 x2 y :
  (0 <=? x1) = true -> (x1 <=? x2) = true -> (0 <=? y) = true ->
  (x1 + y <=? x2 + y) = true /\ (0 <=? x1 + y) = true.
Proof.
  intros H1 L Hy. apply leb_zero_nn in H1, Hy. rewrite leb_spec in L.
  pose proof (SFleb_nn _ _ H1 (Prim2SF_valid x2) L) as H2.
  pose proof (Prim2SF_valid (x1 + y)) as V. rewrite add_spec in V.
  split.
  - rewrite leb_spec, !add_spec. now apply SFadd_mono.
  - apply nn_leb_zero. rewrite add_spec. now apply SFadd_nn.
Qed.

Lemma add_nonneg x y :
  (0 <=? x) = true -> (0 <=? y) = true -> (0 <=? x + y) = true.
Proof.
  intros Hx Hy. apply leb_zero_nn in Hx, Hy. apply nn_leb_zero.
  pose proof (Prim2SF_valid (x + y)) as V. rewrite add_spec in *.
  now apply SFadd_nn.
Qed.

(** Multiplication of finite non-negative numbers. *)
Lemma mul_mono_r x y1 y2 :
  (0 <=? x) = true -> is_infinity x = false ->
  (0 <=? y1) = true -> (y1 <=? y2) = true -> is_infinity y2 = false ->
  (x * y1 <=? x * y2) = true /\ (0 <=? x * y1) = true /\ (0 <=? x * y2) = true.
Proof.
  intros Hx Fx H1 L F2. apply leb_zero_nn in Hx, H1. rewrite leb_spec in L.
  pose proof (SFleb_nn _ _ H1 (Prim2SF_valid y2) L) as H2.
  apply finite_nn_fz in Hx, H2; try assumption.
  pose proof (SFleb_finite_fz _ _ H1 H2 L) as F1.
  pose proof (Prim2SF_valid (x * y1)) as V1. pose proof (Prim2SF_valid (x * y2)) as V2.
  rewrite mul_spec in V1, V2.
  split; [|split].
  - rewrite leb_spec, !mul_spec. now apply SFmul_mono_finite.
  - apply nn_leb_zero. rewrite mul_spec. now apply SFmul_nn_finite.
  - apply nn_leb_zero. rewrite mul_spec. now apply SFmul_nn_finite.
Qed.

(** A finite non-negative number times a factor in [0, 1] does not grow. *)
Lemma mul_le_self x y :
  (0 <=? x) = true -> is_infinity x = false ->
  (0 <=? y) = true -> (y <=? 1) = true ->
  (x * y <=? x) = true.
Proof.
  intros Hx Fx Hy L. apply leb_zero_nn in Hx, Hy. rewrite leb_spec, Prim2SF_one in L.
  apply finite_nn_fz in Hx; [|assumption].
  assert (fz (S754_finite false 4503599627370496 (-52))) as F1.
  { right. eexists _, _. split; reflexivity. }
  pose proof (SFleb_finite_fz _ _ Hy F1 L) as Fy.
  apply (SFleb_val _ _ Fy F1) in L. cbn [val] in L. rewrite F2R_one in L.
  rewrite leb_spec, mul_spec.
  apply (rep_mono _ _ _ _ (SFmul_rep _ _ Hx Fy) (rep_self _ Hx)).
  pose proof (val_fz _ Hx). pose proof (val_fz _ Fy). nra.
Qed.

Lemma fz_one : fz (Prim2SF 1).
Proof. rewrite Prim2SF_one. right. eexists _, _. split; reflexivity. Qed.

Lemma val_one : val (Prim2SF 1) = 1%R.
Proof. rewrite Prim2SF_one. cbn [val]. apply F2R_one. Qed.

Lemma leb_not_infinity x y :
  (0 <=? x) = true -> (x <=? y) = true -> is_infinity y = false ->
  is_infinity x = false.
Proof.
  intros Hx L Fy. apply leb_zero_nn in Hx. rewrite leb_spec in L.
  pose proof (SFleb_nn _ _ Hx (Prim2SF_valid y) L) as Hy.
  apply finite_nn_fz in Hy; [|assumption].
  pose proof (SFleb_finite_fz _ _ Hx Hy L) as Fx.
  destruct (is_infinity x) eqn:E; [|reflexivity].
  apply is_infinity_Prim2SF in E. destruct E as [s E]. rewrite E in Fx.
  destruct Fx as [[s' Fx]|(m & e & Fx & _)]; discriminate.
Qed.

(** The capped rate, seen through its value. *)
Lemma minimum_one_spec x :
  nn (Prim2SF x) ->
  fz (Prim2SF (np_minimum x 1)) /\
  (val (Prim2SF (np_minimum x 1)) <= 1)%R /\
  (fz (Prim2SF x) ->
   val (Prim2SF (np_minimum x 1)) = Rmin (val (Prim2SF x)) 1).
Proof.
  intros N. unfold np_minimum. rewrite (nn_not_nan x N), orb_false_r, leb_spec.
  destruct N as [F|E].
  - destruct (SFleb (Prim2SF x) (Prim2SF 1)) eqn:L; cbv iota.
    + apply (SFleb_val _ _ F fz_one) in L. rewrite val_one in L.
      split; [assumption|]. split; [assumption|]. intros _. now rewrite Rmin_left.
    + assert (1 < val (Prim2SF x))%R as G.
      { destruct (Rle_or_lt (val (Prim2SF x)) 1) as [C|C]; [|assumption].
        rewrite <- val_one in C. apply (SFleb_val _ _ F fz_one) in C. congruence. }
      split; [apply fz_one|]. rewrite val_one. split; [lra|].
      intros _. rewrite Rmin_right; lra.
  - rewrite E, Prim2SF_one. cbn [SFleb SFcompare]. cbv iota.
    split; [apply fz_one|]. rewrite val_one.
    split; [lra|]. intros [[s F]|(m & e & F & _)]; discriminate.
Qed.

Lemma minimum_one_mono x1 x2 :
  nn (Prim2SF x1) -> (x1 <=? x2) = true ->
  (val (Prim2SF (np_minimum x1 1)) <= val (Prim2SF (np_minimum x2 1)))%R.
Proof.
  intros N1 L. rewrite leb_spec in L.
  pose proof (SFleb_nn _ _ N1 (Prim2SF_valid x2) L) as N2.
  destruct (minimum_one_spec x1 N1) as (_ & U1 & E1).
  destruct (minimum_one_spec x2 N2) as (_ & U2 & E2).
  destruct N2 as [F2|I2].
  - pose proof (SFleb_finite_fz _ _ N1 F2 L) as F1.
    rewrite (E1 F1), (E2 F2). apply (SFleb_val _ _ F1 F2) in L.
    apply Rle_min_compat_r. exact L.
  - assert (np_minimum x2 1 = 1) as ->.
    { unfold np_minimum. rewrite leb_spec, I2, Prim2SF_one. cbn [SFleb SFcompare orb].
      assert (is_nan x2 = false) as ->; [|reflexivity].
      apply is_nan_false_Prim2SF. rewrite I2. discriminate. }
    now rewrite val_one.
Qed.

(** One minus a number of [[0, 1]]. *)
Lemma one_minus_rep y :
  fz (Prim2SF y) -> (val (Prim2SF y) <= 1)%R ->
  rep (1 - val (Prim2SF y)) (Prim2SF (1 - y)).
Proof.
  intros F U. rewrite sub_spec, Prim2SF_one. rewrite <- F2R_one.
  apply SFsub_rep; [reflexivity|assumption|]. now rewrite F2R_one.
Qed.

Lemma one_minus_bounds y :
  fz (Prim2SF y) -> (val (Prim2SF y) <= 1)%R ->
  (0 <=? 1 - y) = true /\ (1 - y <=? 1) = true.
Proof.
  intros F U. pose proof (one_minus_rep y F U) as R.
  pose proof (val_fz _ F) as P. split.
  - apply nn_leb_zero. apply (rep_nn _ _ R). apply Prim2SF_valid.
  - rewrite leb_spec. apply (rep_mono _ _ _ _ R (rep_self _ fz_one)).
    rewrite val_one. lra.
Qed.

Lemma one_minus_minimum_antitone x1 x2 :
  (0 <=? x1) = true -> (x1 <=? x2) = true ->
  (1 - np_minimum x2 1 <=? 1 - np_minimum x1 1) = true /\
  (0 <=? 1 - np_minimum x2 1) = true /\
  (1 - np_minimum x1 1 <=? 1) = true.
Proof.
  intros H1 L. apply leb_zero_nn in H1.
  pose proof L as L'. rewrite leb_spec in L'.
  pose proof (SFleb_nn _ _ H1 (Prim2SF_valid x2) L') as H2.
  destruct (minimum_one_spec x1 H1) as (F1 & U1 & _).
  destruct (minimum_one_spec x2 H2) as (F2 & U2 & _).
  pose proof (minimum_one_mono x1 x2 H1 L) as M.
  split; [|split].
  - rewrite leb_spec.
    apply (rep_mono _ _ _ _ (one_minus_rep _ F2 U2) (one_minus_rep _ F1 U1)). lra.
  - now apply one_minus_bounds.
  - now apply one_minus_bounds.
Qed.

(** ** Positive operands *)

Lemma SFleb_positive a b :
  positive_float a -> valid_binary b = true -> SFleb a b = true -> positive_float b.
Proof.
  intros Ha Vb L.
  destruct Ha as [->|(m & e & -> & Ba)];
    destruct b as [s|s| |s m' e']; try discriminate.
  - destruct s; [discriminate|now left].
  - destruct s; [discriminate|now left].
  - destruct s; [discriminate|]. right. eauto.
Qed.

(** For positive operands, [c / (t * f)] does not grow with [t]. *)
Lemma div_mul_antimono_l c t1 t2 f :
  (0 <? t1) = true -> (t1 <=? t2) = true ->
  (0 <? c) = true -> is_infinity c = false -> (0 <? f) = true ->
  (c / (t2 * f) <=? c / (t1 * f)) = true.
Proof.
  intros H1 L Hc Hfin Hf.
  apply Prim2SF_positive in H1, Hc, Hf. rewrite leb_spec in L.
  pose proof (SFleb_positive _ _ H1 (Prim2SF_valid t2) L) as H2.
  rewrite (mul_comm t1 f), (mul_comm t2 f), leb_spec, !div_spec.
  destruct Hc as [Hc|(mc & ec & Hc & Bc)].
  - exfalso. assert (is_infinity c = true); [|congruence].
    apply is_infinity_Prim2SF. eauto.
  - rewrite Hc. apply SFdiv_antimono; try assumption.
    + rewrite mul_spec. now apply SFmul_positive.
    + rewrite mul_spec. now apply SFmul_positive.
    + apply Prim2SF_valid.
    + apply Prim2SF_valid.
    + rewrite !mul_spec. now apply SFmul_mono.
Qed.

(** For positive operands, [c / (t * f)] does not shrink when [c] grows. *)
Lemma div_mul_mono c1 c2 t f :
  (0 <? c1) = true -> (c1 <=? c2) = true -> is_infinity c2 = false ->
  (0 <? t) = true -> (0 <? f) = true ->
  (c1 / (t * f) <=? c2 / (t * f)) = true.
Proof.
  intros H1 L Hfin Ht Hf.
  apply Prim2SF_positive in H1, Ht, Hf. rewrite leb_spec in L.
  pose proof (SFleb_positive _ _ H1 (Prim2SF_valid c2) L) as H2.
  assert (forall c, positive_float (Prim2SF c) -> is_infinity c = false ->
            exists m e, Prim2SF c = S754_finite false m e /\ bounded prec emax m e = true)
    as Fin.
  { intros c [Hc|Hc] Hi; [|assumption]. exfalso.
    assert (is_infinity c = true); [|congruence]. apply is_infinity_Prim2SF. eauto. }
  destruct (Fin c2 H2 Hfin) as (m2 & e2 & E2 & B2).
  assert (is_infinity c1 = false) as Hfin1.
  { destruct (is_infinity c1) eqn:E; [|reflexivity]. exfalso.
    apply is_infinity_Prim2SF in E. destruct E as [s E]. rewrite E, E2 in L.
    destruct H1 as [H1|(m & e & H1 & _)]; rewrite E in H1; [|discriminate].
    injection H1 as ->. discriminate. }
  destruct (Fin c1 H1 Hfin1) as (m1 & e1 & E1 & B1).
  rewrite leb_spec, !div_spec, mul_spec, E1, E2. rewrite E1, E2 in L.
  apply SFdiv_mono; try assumption. now apply SFmul_positive.
Qed.

(** A non-negative number times a positive finite constant. *)
Lemma mul_constant_nonneg x k mk ek :
  Prim2SF k = S754_finite false mk ek ->
  (0 <=? x) = true -> (0 <=? x * k) = true.
Proof.
  intros Hk Hx. apply leb_zero_nn in Hx. apply nn_leb_zero.
  pose proof (Prim2SF_valid (x * k)) as V. rewrite mul_spec, Hk in *.
  assert (fz (S754_finite false mk ek)) as Fk.
  { right. eexists _, _. split; [reflexivity|]. now apply (Prim2SF_bounded k false). }
  destruct Hx as [Fx|Ix].
  - now apply SFmul_nn_finite.
  - rewrite Ix. now right.
Qed.

Lemma leb_trans x y z :
  (0 <=? x) = true -> (x <=? y) = true -> (y <=? z) = true -> (x <=? z) = true.
Proof.
  intros Hx L1 L2. apply leb_zero_nn in Hx. rewrite leb_spec in *.
  pose proof (SFleb_nn _ _ Hx (Prim2SF_valid y) L1) as Hy.
  pose proof (SFleb_nn _ _ Hy (Prim2SF_valid z) L2) as Hz.
  destruct Hz as [Fz|Iz].
  - pose proof (SFleb_finite_fz _ _ Hy Fz L2) as Fy.
    pose proof (SFleb_finite_fz _ _ Hx Fy L1) as Fx.
    apply (SFleb_val _ _ Fx Fy) in L1. apply (SFleb_val _ _ Fy Fz) in L2.
    apply (SFleb_val _ _ Fx Fz). lra.
  - rewrite Iz. now apply SFleb_inf_r.
Qed.

Lemma leb_nonneg x y : (0 <=? x) = true -> (x <=? y) = true -> (0 <=? y) = true.
Proof.
  intros Hx L. apply nn_leb_zero. apply leb_zero_nn in Hx. rewrite leb_spec in L.
  apply (SFleb_nn _ _ Hx (Prim2SF_valid _) L).
Qed.

Lemma add_mono x1 x2 y1 y2 :
  (0 <=? x1) = true -> (x1 <=? x2) = true ->
  (0 <=? y1) = true -> (y1 <=? y2) = true ->
  (x1 + y1 <=? x2 + y2) = true /\ (0 <=? x1 + y1) = true.
Proof.
  intros Hx Lx Hy Ly.
  destruct (add_mono_r x1 x2 y1 Hx Lx Hy) as [A P].
  destruct (add_mono_r y1 y2 x2 Hy Ly (leb_nonneg _ _ Hx Lx)) as [B _].
  rewrite (add_comm y1 x2), (add_comm y2 x2) in B.
  split; [|assumption]. exact (leb_trans _ _ _ P A B).
Qed.

Lemma mul_constant_mono x1 x2 k mk ek :
  Prim2SF k = S754_finite false mk ek ->
  (0 <=? x1) = true -> (x1 <=? x2) = true ->
  (x1 * k <=? x2 * k) = true.
Proof.
  intros Hk H1 L.
  pose proof (mul_constant_nonneg x1 k mk ek Hk H1) as P1.
  pose proof (leb_nonneg _ _ H1 L) as H2.
  apply leb_zero_nn in H1, H2, P1. rewrite leb_spec in *. rewrite !mul_spec in *.
  rewrite Hk in *.
  assert (fz (S754_finite false mk ek)) as Fk.
  { right. eexists _, _. split; [reflexivity|]. now apply (Prim2SF_bounded k false). }
  destruct H2 as [F2|I2].
  - pose proof (SFleb_finite_fz _ _ H1 F2 L) as F1.
    rewrite (SFmul_comm (Prim2SF x1)), (SFmul_comm (Prim2SF x2)).
    now apply SFmul_mono_finite.
  - rewrite I2. cbn [SFmul xorb]. now apply SFleb_inf_r.
Qed.

Lemma np_minimum_ge x : (1 <=? x) = true -> np_minimum x 1 = 1.
Proof.
  intros H. unfold np_minimum.
  assert (is_nan x = false) as ->.
  { apply is_nan_false_Prim2SF. rewrite leb_spec in H. intros E. rewrite E in H.
    destruct (Prim2SF 1); discriminate. }
  rewrite orb_false_r. destruct (x <=? 1) eqn:L; [|reflexivity].
  apply Prim2SF_inj. rewrite leb_spec, Prim2SF_one in *.
  now apply SFleb_antisym_finite.
Qed.

Lemma mul_zero_r x : is_finite x = true -> is_zero (x * 0) = true.
Proof.
  unfold is_finite. rewrite negb_true_iff, orb_false_iff. intros [Hn Hi].
  apply is_zero_Prim2SF. rewrite mul_spec. change (Prim2SF 0) with (S754_zero false).
  apply is_nan_false_Prim2SF in Hn.
  destruct (Prim2SF x) as [s|s| |s m e] eqn:E; cbn [SFmul].
  - eexists. reflexivity.
  - exfalso. assert (is_infinity x = true) as Q; [|congruence].
    apply is_infinity_Prim2SF. eauto.
  - congruence.
  - eexists. reflexivity.
Qed.

(** ** A quotient by a smaller divisor *)





(** The float just below one by [2^-51]. *)
Lemma Prim2SF_below_one :
  Prim2SF (1 - 0x1p-51) = S754_finite false 9007199254740988 (-53).
Proof. vm_compute. reflexivity. Qed.





(** ** NaN and zero operands *)








(** * The route aggregator *)

(** ** Grouping *)

Lemma insert_sorted_perm k ks : Permutation (insert_sorted k ks) (k :: ks).
Proof.
  induction ks as [|k' ks IH]; cbn [insert_sorted]; [reflexivity|].
  destruct (String.leb k k'); [reflexivity|].
  rewrite IH. apply perm_swap.
Qed.

Lemma sort_keys_perm ks : Permutation (sort_keys ks) ks.
Proof.
  induction ks as [|k ks IH]; cbn [sort_keys fold_right]; [reflexivity|].
  rewrite insert_sorted_perm. now apply perm_skip.
Qed.

Lemma in_present_keys df k :
  In k (present_keys df) <->
  exists h, In h df /\ Household.collection_route h = Some k.
Proof.
  unfold present_keys. rewrite in_flat_map. split.
  - intros (h & Hh & Hk). exists h. split; [assumption|].
    destruct (Household.collection_route h) as [k'|]; [|contradiction].
    destruct Hk as [->|[]]. reflexivity.
  - intros (h & Hh & Hk). exists h. split; [assumption|]. rewrite Hk. now left.
Qed.

Lemma group_keys_NoDup df : NoDup (group_keys df).
Proof.
  unfold group_keys. apply Permutation_NoDup with (l := nodup string_dec (present_keys df)).
  - symmetry. apply sort_keys_perm.
  - apply NoDup_nodup.
Qed.

Lemma in_group_keys df k :
  In k (group_keys df) <->
  exists h, In h df /\ Household.collection_route h = Some k.
Proof.
  rewrite <- in_present_keys. unfold group_keys.
  rewrite <- (nodup_In string_dec (present_keys df) k). split.
  - apply Permutation_in, sort_keys_perm.
  - apply Permutation_in. symmetry. apply sort_keys_perm.
Qed.

Lemma summarize_routes_keys df :
  map Summary.collection_route (summarize_routes df) = group_keys df.
Proof.
  unfold summarize_routes. rewrite map_map. cbn [derive agg agg_route Summary.collection_route].
  apply map_id.
Qed.

Lemma in_summarize_routes df r :
  In r (summarize_routes df) -> exists k, r = derive (agg k (group k df)).
Proof.
  unfold summarize_routes. rewrite in_map_iff. intros (k & <- & _). now exists k.
Qed.

(** ** Derived columns *)


(** The gap without any NaN: when the summed distance and time of a route
    are [-0.0] the three cost terms are [-0.0] and add to [-0.0], as in the
    simulator, while the row sum of the aggregator is [+0.0]. *)
Lemma derive_total_neg_zero a :
  agg_distance a = neg_zero -> agg_time a = neg_zero ->
  let r := derive a in
  Summary.total_operational_cost r = 0 /\
  Summary.total_fuel_cost r + Summary.total_labor_cost r
    + Summary.total_maintenance_cost r = neg_zero /\
  Scenario.total_operational_cost (select_scenario (simulate_row 0 1 r)) = neg_zero.
Proof.
  intros D T.
  cbn [derive select_scenario simulate_row Summary.total_operational_cost
       Summary.total_fuel_cost Summary.total_labor_cost Summary.total_maintenance_cost
       Summary.total_distance_km Scenario.total_operational_cost
       sim_total_operational_cost].
  rewrite D, T. repeat split; reflexivity.
Qed.

(** ** Rows of a table and of its image *)

Lemma in_combine_map {A B} (f : A -> B) l x y :
  In (x, y) (combine l (map f l)) -> In x l /\ y = f x.
Proof.
  induction l as [|a l IH]; cbn [combine map In]; [contradiction|].
  intros [H|H].
  - injection H as <- <-. auto.
  - destruct (IH H). auto.
Qed.

Lemma in_combine_map_map {A B C} (f : A -> B) (g : A -> C) l y z :
  In (y, z) (combine (map f l) (map g l)) ->
  exists x, In x l /\ y = f x /\ z = g x.
Proof.
  induction l as [|a l IH]; cbn [combine map In]; [contradiction|].
  intros [H|H].
  - injection H as <- <-. eauto.
  - destruct (IH H) as (x & Hx & E). eauto.
Qed.

(** * The claims *)

(** ** C1: the operational cost is the sum of its three terms *)

(** C1 at a failing input.  [summarize_routes] adds the three cost columns
    with [.sum(axis=1)], which leaves NaN cells out; [simulate_scenario]
    adds the same columns with [+].  With route lengths [inf] and [-inf]
    the distance sum is NaN, so are the fuel and maintenance costs, and the
    total of the aggregator is the labor cost, 30, while the sum of the
    three terms is NaN. *)
Lemma total_operational_cost_skips_nan :
  let r := route_of unbounded_df in
  In r (summarize_routes unbounded_df) /\
  Summary.total_operational_cost r = 30 /\
  is_nan (Summary.total_fuel_cost r + Summary.total_labor_cost r
          + Summary.total_maintenance_cost r) = true /\
  Summary.total_operational_cost r
  <> Summary.total_fuel_cost r + Summary.total_labor_cost r
     + Summary.total_maintenance_cost r.
Proof.
  cbv zeta. split; [left; reflexivity|]. split; [reflexivity|]. split; [reflexivity|].
  intros H. apply (f_equal is_nan) in H. vm_compute in H. discriminate.
Qed.

(** ** C2: the new recycling rate is capped at one *)

(** C2: for every Route Summary row and every increase [r >= 0] the new
    rate is the minimum of [avg_recycling_rate + r] and [1.0] (the sum when
    it is at most one, one when it is above), and with [r = 1.0] and a
    base rate above zero it is exactly [1.0]. *)
Theorem new_recycling_rate_is_min summary_df r fuel_cost_multiplier :
  (0 <=? r) = true ->
  map Scenario.new_recycling_rate (simulate_scenario summary_df r fuel_cost_multiplier)
  = map (fun s => np_minimum (Summary.avg_recycling_rate s + r) 1) summary_df
  /\ forall s, In s summary_df ->
       let new := Scenario.new_recycling_rate
                    (select_scenario (simulate_row r fuel_cost_multiplier s)) in
       ((Summary.avg_recycling_rate s + r <=? 1) = true ->
        new = Summary.avg_recycling_rate s + r) /\
       ((1 <? Summary.avg_recycling_rate s + r) = true -> new = 1) /\
       (r = 1 -> (0 <? Summary.avg_recycling_rate s) = true -> new = 1).
Proof.
  intros _. split.
  - unfold simulate_scenario. rewrite map_map. reflexivity.
  - intros s _. cbn [simulate_row select_scenario sim_new_recycling_rate
                     Scenario.new_recycling_rate]. repeat split.
    + apply np_minimum_le.
    + apply np_minimum_gt.
    + intros ->. apply minimum_add_one.
Qed.

Lemma new_recycling_rate_is_min_witness :
  let s := route_of sample_df in
  (0 <=? 1) = true /\
  In s (summarize_routes sample_df) /\
  (0 <? Summary.avg_recycling_rate s) = true /\
  (1 <? Summary.avg_recycling_rate s + 1) = true /\
  Scenario.new_recycling_rate (select_scenario (simulate_row 1 1 s)) = 1 /\
  map Scenario.new_recycling_rate (simulate_scenario (summarize_routes sample_df) 1 1)
  = map (fun s => np_minimum (Summary.avg_recycling_rate s + 1) 1)
        (summarize_routes sample_df).
Proof.
  assert (In (route_of sample_df) (summarize_routes sample_df)) as Hs
    by (left; reflexivity).
  destruct (new_recycling_rate_is_min (summarize_routes sample_df) 1 1 eq_refl)
    as (H1 & H2).
  destruct (H2 _ Hs) as (_ & _ & H3).
  cbv zeta. split; [reflexivity|]. split; [exact Hs|].
  split; [reflexivity|]. split; [reflexivity|]. split.
  - apply H3; reflexivity.
  - exact H1.
Defined.

(** ** C3: the default scenario reproduces the operational cost *)

(** C3 at a failing input: on the table with route lengths [inf] and
    [-inf] the summary's total is 30 (its row sum left the NaN terms out)
    and the default scenario's total, added with [+], is NaN. *)
Lemma default_scenario_total_nan :
  simulate_scenario (summarize_routes unbounded_df) 0 1
  = [select_scenario (simulate_row 0 1 (route_of unbounded_df))] /\
  Summary.total_operational_cost (route_of unbounded_df) = 30 /\
  is_nan (Scenario.total_operational_cost
            (select_scenario (simulate_row 0 1 (route_of unbounded_df)))) = true.
Proof. repeat split; reflexivity. Qed.

(** ** C4: one row per route *)

(** C4: the output of [summarize_routes] has exactly one row for each
    distinct route identifier present in the input: its identifiers are
    pairwise distinct and are those of the input rows, as many as the
    input has distinct ones; the empty table gives the empty table, and
    the function, being total, raises nothing. *)
Theorem summarize_routes_one_row_per_route df :
  let routes := map Summary.collection_route (summarize_routes df) in
  NoDup routes /\
  (forall k, In k routes <->
             exists h, In h df /\ Household.collection_route h = Some k) /\
  List.length (summarize_routes df)
  = List.length (nodup string_dec (present_keys df)) /\
  summarize_routes [] = [].
Proof.
  cbv zeta. rewrite summarize_routes_keys. repeat split.
  - apply group_keys_NoDup.
  - apply in_group_keys.
  - apply in_group_keys.
  - unfold summarize_routes, group_keys. rewrite length_map.
    apply Permutation_length, sort_keys_perm.
Qed.

(** ** C5: the worked example *)

(** C5: a route with 2 households, mean waste 5, distance 10 and time 2
    gets waste 10, fuel cost 8.0, labor cost 30.0, maintenance cost 1.0,
    operational cost 39.0 and cost per kg 3.9. *)
Theorem derive_example a :
  agg_households a = 2%Z -> agg_avg_waste a = 5 ->
  agg_distance a = 10 -> agg_time a = 2 ->
  let r := derive a in
  Summary.total_waste_kg_per_day r = 10 /\
  Summary.total_fuel_cost r = 8.0 /\
  Summary.total_labor_cost r = 30.0 /\
  Summary.total_maintenance_cost r = 1.0 /\
  Summary.total_operational_cost r = 39.0 /\
  Summary.cost_per_kg_waste r = 3.9.
Proof.
  intros Hh Hw Hd Ht.
  cbn [derive Summary.total_waste_kg_per_day Summary.total_fuel_cost
       Summary.total_labor_cost Summary.total_maintenance_cost
       Summary.total_operational_cost Summary.cost_per_kg_waste].
  rewrite Hh, Hw, Hd, Ht. repeat split; reflexivity.
Qed.

Lemma derive_example_witness :
  In (route_of sample_df) (summarize_routes sample_df) /\
  let r := route_of sample_df in
  Summary.total_waste_kg_per_day r = 10 /\
  Summary.total_fuel_cost r = 8.0 /\
  Summary.total_labor_cost r = 30.0 /\
  Summary.total_maintenance_cost r = 1.0 /\
  Summary.total_operational_cost r = 39.0 /\
  Summary.cost_per_kg_waste r = 3.9.
Proof.
  split; [left; reflexivity|].
  apply (derive_example (agg route_a (group route_a sample_df))); reflexivity.
Defined.

(** ** C6: the payback period against the savings factor *)

(** C6, as the code has it: for a positive finite bin cost and savings
    factors [0 < f1 < f2], on every route of positive operational cost the
    payback [roi_years] at [f2] is at most the payback at [f1]. *)
Theorem roi_years_antimonotone summary_df smart_bin_cost_per_route f1 f2 r1 r2 :
  In (r1, r2) (combine (calculate_smart_bin_roi summary_df smart_bin_cost_per_route f1)
                       (calculate_smart_bin_roi summary_df smart_bin_cost_per_route f2)) ->
  (0 <? Roi.total_operational_cost r1) = true ->
  (0 <? smart_bin_cost_per_route) = true ->
  is_infinity smart_bin_cost_per_route = false ->
  (0 <? f1) = true -> (f1 <? f2) = true ->
  Roi.collection_route r2 = Roi.collection_route r1 /\
  Roi.total_operational_cost r2 = Roi.total_operational_cost r1 /\
  (Roi.roi_years r2 <=? Roi.roi_years r1) = true.
Proof.
  intros H. apply in_combine_map_map in H. destruct H as (s & _ & -> & ->).
  cbn [roi_row Roi.roi_years Roi.total_operational_cost Roi.collection_route].
  intros Ht Hc Hfin H1 H12. repeat split. now apply div_mul_antimono.
Qed.

Lemma roi_years_antimonotone_witness :
  let r1 := roi_row 2000 0.1 (route_of sample_df) in
  let r2 := roi_row 2000 0.15 (route_of sample_df) in
  Roi.collection_route r2 = Roi.collection_route r1 /\
  Roi.total_operational_cost r2 = Roi.total_operational_cost r1 /\
  (Roi.roi_years r2 <=? Roi.roi_years r1) = true.
Proof.
  apply (roi_years_antimonotone (summarize_routes sample_df) 2000 0.1 0.15).
  - left. reflexivity.
  - reflexivity.
  - reflexivity.
  - reflexivity.
  - reflexivity.
  - reflexivity.
Defined.

(** C6 as stated fails twice on the route of operational cost 39 with the
    default bin cost 2000: the factors 0.23 and 0.23000000000000004 give
    the same payback, and a negative factor gives a smaller (negative)
    payback than a larger positive one. *)
Lemma roi_years_not_strictly_decreasing :
  let df := summarize_routes sample_df in
  map Roi.total_operational_cost (calculate_smart_bin_roi df 2000 0.23) = [39] /\
  (0.23 <? 0.23000000000000004) = true /\
  map Roi.roi_years (calculate_smart_bin_roi df 2000 0.23000000000000004)
  = map Roi.roi_years (calculate_smart_bin_roi df 2000 0.23) /\
  (-0.15 <? 0.15) = true /\
  map Roi.roi_years (calculate_smart_bin_roi df 2000 (-0.15)) = [-341.88034188034192] /\
  map Roi.roi_years (calculate_smart_bin_roi df 2000 0.15) = [341.88034188034192].
Proof. repeat split; reflexivity. Qed.

(** ** C7: division by a zero adjusted waste *)

(** C7: [simulate_scenario] divides the operational cost by the adjusted
    waste without a guard; on every row whose adjusted waste is zero the
    quotient is still computed and is not a finite number (an infinity or
    NaN). *)
Theorem cost_per_kg_waste_unguarded summary_df recycling_increase fuel_cost_multiplier row :
  In row (simulate_scenario summary_df recycling_increase fuel_cost_multiplier) ->
  is_zero (Scenario.adjusted_waste_kg_per_day row) = true ->
  Scenario.cost_per_kg_waste row
  = Scenario.total_operational_cost row / Scenario.adjusted_waste_kg_per_day row
  /\ is_finite (Scenario.cost_per_kg_waste row) = false.
Proof.
  unfold simulate_scenario. rewrite in_map_iff. intros (s & <- & _).
  cbn [select_scenario simulate_row Scenario.adjusted_waste_kg_per_day
       Scenario.cost_per_kg_waste Scenario.total_operational_cost
       sim_adjusted_waste_kg_per_day sim_cost_per_kg_waste sim_total_operational_cost].
  intros Hz. split; [reflexivity|]. now apply div_by_zero_not_finite.
Qed.

Lemma cost_per_kg_waste_unguarded_witness :
  let row := select_scenario (simulate_row 0 1 (route_of recycled_df)) in
  Scenario.cost_per_kg_waste row
  = Scenario.total_operational_cost row / Scenario.adjusted_waste_kg_per_day row
  /\ is_finite (Scenario.cost_per_kg_waste row) = false.
Proof.
  apply (cost_per_kg_waste_unguarded (summarize_routes recycled_df) 0 1).
  - left. reflexivity.
  - reflexivity.
Defined.

(** ** C8: the input's fuel cost per km is ignored *)

(** C8: two Route Summary tables that differ only in their
    [fuel_cost_per_km] column have the same scenario, for the same
    parameters; the simulator's own rate is [0.8 * fuel_cost_multiplier]. *)
Theorem simulate_scenario_ignores_fuel_cost_per_km t1 t2
    recycling_increase fuel_cost_multiplier :
  Forall2 same_but_fuel_cost_per_km t1 t2 ->
  simulate_scenario t1 recycling_increase fuel_cost_multiplier
  = simulate_scenario t2 recycling_increase fuel_cost_multiplier
  /\ forall s, sim_fuel_cost_per_km
                 (simulate_row recycling_increase fuel_cost_multiplier s)
               = 0.8 * fuel_cost_multiplier.
Proof.
  intros H. split; [|reflexivity].
  induction H as [|a b t1 t2 Hab _ IH]; [reflexivity|].
  unfold simulate_scenario in *. cbn [map]. rewrite IH. f_equal.
  destruct Hab as (E1 & E2 & _ & E4 & E5 & _ & _ & E8 & _ & _ & _ & _ & E13 & E14 & _).
  unfold select_scenario, simulate_row.
  cbn [sim_base sim_adjusted_waste_kg_per_day sim_new_recycling_rate
       sim_total_operational_cost sim_cost_per_kg_waste].
  now rewrite E1, E2, E4, E5, E8, E13, E14.
Qed.

Lemma simulate_scenario_ignores_fuel_cost_per_km_witness :
  simulate_scenario (summarize_routes sample_df) 0.2 1.5
  = simulate_scenario (map (with_fuel_cost_per_km 99) (summarize_routes sample_df)) 0.2 1.5
  /\ forall s, sim_fuel_cost_per_km (simulate_row 0.2 1.5 s) = 0.8 * 1.5.
Proof.
  apply (simulate_scenario_ignores_fuel_cost_per_km
           (summarize_routes sample_df)
           (map (with_fuel_cost_per_km 99) (summarize_routes sample_df)) 0.2 1.5).
  repeat constructor.
Defined.

(** ** C9: no lower bound on the new recycling rate *)

(** C9: for every increase, negative ones included, the new rate is
    [np.minimum(avg_recycling_rate + recycling_increase, 1.0)], which is
    the sum itself whenever the sum is at most one; on the sample route
    (rate 0.5, 2 households, mean waste 5) the increase -0.75 gives the
    rate -0.25 and the adjusted waste 12.5, above 2 * 5. *)
Theorem new_recycling_rate_unbounded_below :
  (forall s recycling_increase fuel_cost_multiplier,
     let new := Scenario.new_recycling_rate
                  (select_scenario (simulate_row recycling_increase fuel_cost_multiplier s)) in
     new = np_minimum (Summary.avg_recycling_rate s + recycling_increase) 1 /\
     ((Summary.avg_recycling_rate s + recycling_increase <=? 1) = true ->
      new = Summary.avg_recycling_rate s + recycling_increase)) /\
  (let s := route_of sample_df in
   let row := select_scenario (simulate_row (-0.75) 1 s) in
   In s (summarize_routes sample_df) /\
   (-0.75 <? - Summary.avg_recycling_rate s) = true /\
   Scenario.new_recycling_rate row = -0.25 /\
   (Scenario.new_recycling_rate row <? 0) = true /\
   Scenario.adjusted_waste_kg_per_day row = 12.5 /\
   (of_int64 (Summary.total_households s) * Summary.avg_waste_kg_per_day s
    <? Scenario.adjusted_waste_kg_per_day row) = true).
Proof.
  split.
  - intros s ri fm. cbn [simulate_row select_scenario sim_new_recycling_rate
                         Scenario.new_recycling_rate].
    split; [reflexivity|]. apply np_minimum_le.
  - cbv zeta. split; [left; reflexivity|]. repeat split; reflexivity.
Qed.

(** ** C10: the default scenario against the base cost per kg *)




(** The bounds on the rate, the waste and the base cost per kg cannot be
    dropped either: a rate of [2^-60] is absorbed by [1 - rate], a base
    cost per kg that overflows is [inf] on both sides, and a waste of the
    least positive number is not made smaller by the factor 0.75; each time
    the two costs per kg are equal. *)
Lemma cost_per_kg_ties :
  (let summary := summarize_routes trace_df in
   let sim := simulate_scenario summary 0 1 in
   map Summary.avg_recycling_rate summary = [0x1p-60] /\
   map Scenario.adjusted_waste_kg_per_day sim = map Summary.total_waste_kg_per_day summary /\
   map Summary.cost_per_kg_waste summary = [7.8] /\
   map Scenario.cost_per_kg_waste sim = [7.8]) /\
  (let summary := summarize_routes huge_df in
   let sim := simulate_scenario summary 0 1 in
   map Summary.avg_recycling_rate summary = [0.5] /\
   map Summary.cost_per_kg_waste summary = [infinity] /\
   map Scenario.cost_per_kg_waste sim = [infinity]) /\
  (let summary := summarize_routes speck_df in
   let sim := simulate_scenario summary 0 1 in
   map Summary.avg_recycling_rate summary = [0.25] /\
   map Summary.total_waste_kg_per_day summary = [0x1p-1074] /\
   map Scenario.adjusted_waste_kg_per_day sim = [0x1p-1074] /\
   map Summary.cost_per_kg_waste summary = [15] /\
   map Scenario.cost_per_kg_waste sim = [15]).
Proof. repeat split; reflexivity. Qed.

(** * Further lemmas on the aggregator *)

(** ** Order of the output *)

Lemma insert_sorted_Sorted k ks :
  Sorted route_le ks -> Sorted route_le (insert_sorted k ks).
Proof.
  induction ks as [|k' ks IH]; cbn [insert_sorted]; intros H.
  - repeat constructor.
  - destruct (String.leb k k') eqn:E.
    + constructor; [assumption|]. constructor. exact E.
    + inversion H as [|? ? Hs Hh]; subst. constructor; [now apply IH|].
      assert (route_le k' k) as Hk.
      { destruct (String.leb_total k k') as [T|T]; [congruence|exact T]. }
      destruct ks as [|k'' ks]; cbn [insert_sorted].
      * now constructor.
      * destruct (String.leb k k''); constructor; [assumption|].
        now inversion Hh.
Qed.

Lemma sort_keys_Sorted ks : Sorted route_le (sort_keys ks).
Proof.
  induction ks as [|k ks IH]; cbn [sort_keys fold_right]; [constructor|].
  now apply insert_sorted_Sorted.
Qed.

(** ** Sums over the groups *)

Lemma count_present_cons {A} (x : option A) xs :
  count_present (x :: xs)
  = ((match x with Some _ => 1 | None => 0 end) + count_present xs)%Z.
Proof.
  unfold count_present. cbn [filter]. destruct x; cbn [List.length]; lia.
Qed.

Lemma sumZ_indicator k0 ks :
  NoDup ks ->
  sumZ (map (fun k => if String.eqb k k0 then 1%Z else 0%Z) ks)
  = if in_dec string_dec k0 ks then 1%Z else 0%Z.
Proof.
  induction 1 as [|k ks Hk Hnd IH]; cbn [map sumZ fold_right]; [reflexivity|].
  fold (sumZ (map (fun k => if String.eqb k k0 then 1%Z else 0%Z) ks)).
  rewrite IH. destruct (String.eqb_spec k k0) as [->|N].
  - destruct (in_dec string_dec k0 ks) as [I|I]; [contradiction|].
    destruct (in_dec string_dec k0 (k0 :: ks)) as [J|J]; [lia|].
    exfalso. apply J. now left.
  - destruct (in_dec string_dec k0 ks) as [I|I];
      destruct (in_dec string_dec k0 (k :: ks)) as [J|J]; try lia.
    + exfalso. apply J. now right.
    + exfalso. destruct J as [J|J]; [congruence|contradiction].
Qed.

Lemma sumZ_map_add {A} (f g : A -> Z) xs :
  sumZ (map (fun x => f x + g x)%Z xs) = (sumZ (map f xs) + sumZ (map g xs))%Z.
Proof.
  induction xs as [|x xs IH]; cbn [map sumZ fold_right]; [reflexivity|].
  fold (sumZ (map (fun x => f x + g x)%Z xs)) (sumZ (map f xs)) (sumZ (map g xs)).
  lia.
Qed.

Lemma sumZ_map_zero {A} (xs : list A) : sumZ (map (fun _ => 0%Z) xs) = 0%Z.
Proof. induction xs as [|x xs IH]; cbn [map sumZ fold_right]; [reflexivity|]. exact IH. Qed.

Lemma sumZ_map_ext {A} (f g : A -> Z) xs :
  (forall x, f x = g x) -> sumZ (map f xs) = sumZ (map g xs).
Proof. intros H. f_equal. apply map_ext. exact H. Qed.

Lemma households_per_key ks df :
  NoDup ks ->
  (forall h k, In h df -> Household.collection_route h = Some k -> In k ks) ->
  sumZ (map (fun k => count_present (map Household.household_id (group k df))) ks)
  = Z.of_nat (List.length (filter counted df)).
Proof.
  intros Hnd. induction df as [|h df IH]; intros Hcov.
  - cbn [group filter map]. unfold count_present. cbn. apply sumZ_map_zero.
  - assert (forall h0 k, In h0 df -> Household.collection_route h0 = Some k -> In k ks) as Hcov'.
    { intros h0 k Hh0. apply Hcov. now right. }
    specialize (IH Hcov').
    rewrite (sumZ_map_ext _
      (fun k => (if in_group k h
                 then match Household.household_id h with Some _ => 1 | None => 0 end
                 else 0)
                + count_present (map Household.household_id (group k df)))%Z).
    + rewrite sumZ_map_add, IH. cbn [filter]. unfold counted at 2, in_group.
      destruct (Household.collection_route h) as [k0|] eqn:Ek.
      * destruct (Household.household_id h) as [i|].
        -- rewrite (sumZ_indicator k0 ks Hnd).
           destruct (in_dec string_dec k0 ks) as [I|I].
           ++ cbn [List.length]. lia.
           ++ exfalso. apply I. apply (Hcov h k0); [now left|assumption].
        -- rewrite (sumZ_map_ext _ (fun _ => 0%Z)).
           ++ rewrite sumZ_map_zero. lia.
           ++ intros k. now destruct (String.eqb k k0).
      * rewrite sumZ_map_zero. lia.
    + intros k. unfold group. cbn [filter]. destruct (in_group k h).
      * cbn [map]. now rewrite count_present_cons.
      * lia.
Qed.

Lemma sumZ_cons x xs : sumZ (x :: xs) = (x + sumZ xs)%Z.
Proof. reflexivity. Qed.

Lemma sumZ_per_key (f : Household.row -> Z) ks df :
  NoDup ks ->
  (forall h k, In h df -> Household.collection_route h = Some k -> In k ks) ->
  sumZ (map (fun k => sumZ (map f (group k df))) ks)
  = sumZ (map f (filter routed df)).
Proof.
  intros Hnd. induction df as [|h df IH]; intros Hcov.
  - cbn [group filter map]. apply sumZ_map_zero.
  - assert (forall h0 k, In h0 df -> Household.collection_route h0 = Some k -> In k ks) as Hcov'.
    { intros h0 k Hh0. apply Hcov. now right. }
    specialize (IH Hcov').
    rewrite (sumZ_map_ext _
      (fun k => (if in_group k h then f h else 0) + sumZ (map f (group k df)))%Z).
    + rewrite sumZ_map_add, IH. cbn [filter]. unfold routed at 2, in_group.
      destruct (Household.collection_route h) as [k0|] eqn:Ek.
      * rewrite (sumZ_map_ext _ (fun k => f h * (if String.eqb k k0 then 1 else 0))%Z)
          by (intros k; destruct (String.eqb k k0); lia).
        assert (forall xs, sumZ (map (fun k => f h * (if String.eqb k k0 then 1 else 0))%Z xs)
                           = (f h * sumZ (map (fun k => if String.eqb k k0 then 1 else 0) xs))%Z)
          as Hscal.
        { induction xs as [|x xs IHx]; cbn [map sumZ fold_right]; [lia|].
          fold (sumZ (map (fun k => f h * (if String.eqb k k0 then 1 else 0))%Z xs))
               (sumZ (map (fun k => if String.eqb k k0 then 1%Z else 0%Z) xs)).
          rewrite IHx. lia. }
        rewrite Hscal, (sumZ_indicator k0 ks Hnd).
        destruct (in_dec string_dec k0 ks) as [I|I].
        -- cbn [map sumZ fold_right]. fold (sumZ (map f (filter routed df))). lia.
        -- exfalso. apply I. apply (Hcov h k0); [now left|assumption].
      * rewrite sumZ_map_zero. lia.
    + intros k. unfold group. cbn [filter]. destruct (in_group k h).
      * cbn [map sumZ fold_right]. reflexivity.
      * lia.
Qed.

Lemma wrap64_add_l a x : wrap64 (wrap64 a + x) = wrap64 (a + x).
Proof.
  unfold wrap64. f_equal.
  replace ((a + 2 ^ 63) mod 2 ^ 64 - 2 ^ 63 + x + 2 ^ 63)%Z
    with ((a + 2 ^ 63) mod 2 ^ 64 + x)%Z by lia.
  rewrite Zplus_mod_idemp_l. f_equal. lia.
Qed.

Lemma isum_wrap xs : isum xs = wrap64 (sumZ xs).
Proof.
  unfold isum. change 0%Z with (wrap64 0) at 1.
  replace (sumZ xs) with (0 + sumZ xs)%Z by lia.
  generalize 0%Z. induction xs as [|x xs IH]; intros a; cbn [fold_left sumZ fold_right].
  - f_equal. lia.
  - fold (sumZ xs). rewrite wrap64_add_l, IH. f_equal. lia.
Qed.

Lemma wrap64_small z : (- 2 ^ 63 <= z < 2 ^ 63)%Z -> wrap64 z = z.
Proof. intros H. unfold wrap64. rewrite Z.mod_small; lia. Qed.

Lemma sumZ_nonneg xs : (forall x, In x xs -> (0 <= x)%Z) -> (0 <= sumZ xs)%Z.
Proof.
  induction xs as [|x xs IH]; cbn [sumZ fold_right]; intros H; [lia|].
  fold (sumZ xs). pose proof (H x (or_introl eq_refl)).
  assert (0 <= sumZ xs)%Z by (apply IH; intros y Hy; apply H; now right). lia.
Qed.

Lemma sumZ_group_le (f : Household.row -> Z) k df :
  (forall h, In h df -> (0 <= f h)%Z) ->
  (0 <= sumZ (map f (group k df)) <= sumZ (map f (filter routed df)))%Z.
Proof.
  unfold group. induction df as [|h df IH]; intros H.
  - cbn. lia.
  - assert (0 <= sumZ (map f (filter (in_group k) df))
            <= sumZ (map f (filter routed df)))%Z as B
      by (apply IH; intros y Hy; apply H; now right).
    pose proof (H h (or_introl eq_refl)) as Hh.
    cbn [filter].
    destruct (in_group k h) eqn:E1; destruct (routed h) eqn:E2;
      cbn [map]; rewrite ?sumZ_cons; try lia.
    exfalso. unfold in_group in E1. unfold routed in E2.
    destruct (Household.collection_route h); discriminate.
Qed.

(** ** Costs of one route *)

Lemma derive_costs_nonneg a :
  (0 <=? agg_distance a) = true -> (0 <=? agg_time a) = true ->
  let r := derive a in
  (0 <=? Summary.total_fuel_cost r) = true /\
  (0 <=? Summary.total_labor_cost r) = true /\
  (0 <=? Summary.total_maintenance_cost r) = true /\
  (0 <=? Summary.total_operational_cost r) = true.
Proof.
  intros Hd Ht.
  cbn [derive Summary.total_fuel_cost Summary.total_labor_cost
       Summary.total_maintenance_cost Summary.total_operational_cost].
  assert ((0 <=? agg_distance a * 0.8) = true) as Hf
    by (now apply (mul_constant_nonneg _ 0.8 7205759403792794 (-53))).
  assert ((0 <=? agg_time a * of_int64 15) = true) as Hl
    by (now apply (mul_constant_nonneg _ (of_int64 15) 8444249301319680 (-49))).
  assert ((0 <=? agg_distance a * 0.1) = true) as Hm
    by (now apply (mul_constant_nonneg _ 0.1 7205759403792794 (-56))).
  repeat split; try assumption.
  unfold row_sum, fsum, notna. cbn [filter].
  rewrite (nn_not_nan _ (leb_zero_nn _ Hf)), (nn_not_nan _ (leb_zero_nn _ Hl)),
    (nn_not_nan _ (leb_zero_nn _ Hm)).
  cbn [negb fold_left]. repeat apply add_nonneg; try assumption. reflexivity.
Qed.

Lemma derive_costs_monotone a1 a2 :
  (0 <=? agg_distance a1) = true -> (agg_distance a1 <=? agg_distance a2) = true ->
  (0 <=? agg_time a1) = true -> (agg_time a1 <=? agg_time a2) = true ->
  let r1 := derive a1 in
  let r2 := derive a2 in
  (Summary.total_fuel_cost r1 <=? Summary.total_fuel_cost r2) = true /\
  (Summary.total_labor_cost r1 <=? Summary.total_labor_cost r2) = true /\
  (Summary.total_maintenance_cost r1 <=? Summary.total_maintenance_cost r2) = true /\
  (Summary.total_operational_cost r1 <=? Summary.total_operational_cost r2) = true.
Proof.
  intros Hd Ld Ht Lt.
  cbn [derive Summary.total_fuel_cost Summary.total_labor_cost
       Summary.total_maintenance_cost Summary.total_operational_cost].
  pose proof (leb_nonneg _ _ Hd Ld) as Hd2. pose proof (leb_nonneg _ _ Ht Lt) as Ht2.
  assert (Prim2SF 0.8 = S754_finite false 7205759403792794 (-53)) as K8 by reflexivity.
  assert (Prim2SF (of_int64 15) = S754_finite false 8444249301319680 (-49)) as K15
    by reflexivity.
  assert (Prim2SF 0.1 = S754_finite false 7205759403792794 (-56)) as K1 by reflexivity.
  pose proof (mul_constant_mono _ _ _ _ _ K8 Hd Ld) as Lf.
  pose proof (mul_constant_mono _ _ _ _ _ K15 Ht Lt) as Ll.
  pose proof (mul_constant_mono _ _ _ _ _ K1 Hd Ld) as Lm.
  pose proof (mul_constant_nonneg _ _ _ _ K8 Hd) as Pf.
  pose proof (mul_constant_nonneg _ _ _ _ K15 Ht) as Pl.
  pose proof (mul_constant_nonneg _ _ _ _ K1 Hd) as Pm.
  pose proof (leb_nonneg _ _ Pf Lf) as Pf2. pose proof (leb_nonneg _ _ Pl Ll) as Pl2.
  pose proof (leb_nonneg _ _ Pm Lm) as Pm2.
  repeat split; try assumption.
  unfold row_sum, fsum, notna. cbn [filter].
  rewrite (nn_not_nan _ (leb_zero_nn _ Pf)), (nn_not_nan _ (leb_zero_nn _ Pl)),
    (nn_not_nan _ (leb_zero_nn _ Pm)), (nn_not_nan _ (leb_zero_nn _ Pf2)),
    (nn_not_nan _ (leb_zero_nn _ Pl2)), (nn_not_nan _ (leb_zero_nn _ Pm2)).
  cbn [negb fold_left].
  assert ((0 <=? 0) = true) as Z0 by reflexivity.
  destruct (add_mono 0 0 _ _ Z0 Z0 Pf Lf) as [A1 B1].
  destruct (add_mono _ _ _ _ B1 A1 Pl Ll) as [A2 B2].
  destruct (add_mono _ _ _ _ B2 A2 Pm Lm) as [A3 _]. exact A3.
Qed.

(** * Lemmas on the simulator *)

Lemma simulate_row_waste_antitone s r1 r2 m1 m2 :
  (0 <=? Summary.avg_recycling_rate s) = true ->
  (0 <=? r1) = true -> (r1 <=? r2) = true ->
  (0 <=? of_int64 (Summary.total_households s) * Summary.avg_waste_kg_per_day s) = true ->
  is_infinity (of_int64 (Summary.total_households s) * Summary.avg_waste_kg_per_day s) = false ->
  let a1 := Scenario.adjusted_waste_kg_per_day (select_scenario (simulate_row r1 m1 s)) in
  let a2 := Scenario.adjusted_waste_kg_per_day (select_scenario (simulate_row r2 m2 s)) in
  (0 <=? a2) = true /\ (a2 <=? a1) = true /\
  (a1 <=? of_int64 (Summary.total_households s) * Summary.avg_waste_kg_per_day s) = true.
Proof.
  intros Ha H1 L Hw Fw.
  cbn [select_scenario simulate_row Scenario.adjusted_waste_kg_per_day
       sim_adjusted_waste_kg_per_day].
  set (W := of_int64 (Summary.total_households s) * Summary.avg_waste_kg_per_day s) in *.
  set (avg := Summary.avg_recycling_rate s) in *.
  destruct (add_mono_r r1 r2 avg H1 L Ha) as [Ls Hs].
  rewrite (add_comm r1 avg), (add_comm r2 avg) in Ls. rewrite (add_comm r1 avg) in Hs.
  destruct (one_minus_minimum_antitone _ _ Hs Ls) as (Ld & Hd2 & Ud1).
  assert ((0 <=? 1 - np_minimum (avg + r1) 1) = true) as Hd1.
  { apply nn_leb_zero. apply leb_zero_nn in Hd2. rewrite leb_spec in Ld.
    apply (SFleb_nn _ _ Hd2 (Prim2SF_valid _) Ld). }
  assert (is_infinity (1 - np_minimum (avg + r1) 1) = false) as Fd1.
  { apply (leb_not_infinity _ 1 Hd1 Ud1). reflexivity. }
  destruct (mul_mono_r W _ _ Hw Fw Hd2 Ld Fd1) as (M & P2 & _).
  split; [assumption|]. split; [assumption|]. now apply mul_le_self.
Qed.

Lemma simulate_row_cost_monotone s recycling_increase m1 m2 :
  (0 <=? m1) = true -> (m1 <=? m2) = true -> is_infinity m2 = false ->
  (0 <=? Summary.total_distance_km s) = true ->
  is_infinity (Summary.total_distance_km s) = false ->
  (0 <=? Summary.total_labor_cost s) = true ->
  (0 <=? Summary.total_maintenance_cost s) = true ->
  let c1 := Scenario.total_operational_cost
              (select_scenario (simulate_row recycling_increase m1 s)) in
  let c2 := Scenario.total_operational_cost
              (select_scenario (simulate_row recycling_increase m2 s)) in
  (0 <=? c1) = true /\ (c1 <=? c2) = true.
Proof.
  intros H1 L F2 Hd Fd Hl Hm.
  cbn [select_scenario simulate_row Scenario.total_operational_cost
       sim_total_operational_cost].
  assert ((0 <=? 0.8) = true) as H8 by reflexivity.
  assert (is_infinity 0.8 = false) as F8 by reflexivity.
  destruct (mul_mono_r 0.8 m1 m2 H8 F8 H1 L F2) as (Lx & Hx1 & Hx2).
  assert (is_infinity (0.8 * m2) = false) as Fx2.
  { assert ((0 <=? m2) = true) as H2.
    { apply nn_leb_zero. apply leb_zero_nn in H1. rewrite leb_spec in L.
      apply (SFleb_nn _ _ H1 (Prim2SF_valid _) L). }
    apply (leb_not_infinity _ m2 Hx2); [|assumption].
    rewrite mul_comm. apply mul_le_self; try assumption; reflexivity. }
  destruct (mul_mono_r _ _ _ Hd Fd Hx1 Lx Fx2) as (Lf & Hf1 & _).
  destruct (add_mono_r _ _ _ Hf1 Lf Hl) as (La & Ha1).
  destruct (add_mono_r _ _ _ Ha1 La Hm) as (Lc & Hc1).
  split; assumption.
Qed.

Lemma in_recycle_inc_positions p : (0 <= p <= 50)%Z -> In p recycle_inc_positions.
Proof.
  intros H. unfold recycle_inc_positions. rewrite <- (Z2Nat.id p) by lia.
  apply in_map. apply in_seq. lia.
Qed.

Lemma recycling_increase_of_order p1 p2 :
  (0 <= p1)%Z -> (p1 <= p2)%Z -> (p2 <= 50)%Z ->
  (0 <=? recycling_increase_of p1) = true /\
  (recycling_increase_of p1 <=? recycling_increase_of p2) = true /\
  (recycling_increase_of p2 <=? 0.5) = true.
Proof.
  intros H0 H12 H50.
  assert (forallb (fun a => forallb (fun b =>
            implb (a <=? b)%Z
              ((0 <=? recycling_increase_of a)
               && (recycling_increase_of a <=? recycling_increase_of b)
               && (recycling_increase_of b <=? 0.5)))
            recycle_inc_positions) recycle_inc_positions = true) as C
    by (vm_compute; reflexivity).
  rewrite forallb_forall in C.
  specialize (C p1 (in_recycle_inc_positions p1 ltac:(lia))).
  rewrite forallb_forall in C.
  specialize (C p2 (in_recycle_inc_positions p2 ltac:(lia))).
  assert ((p1 <=? p2)%Z = true) as E by (apply Z.leb_le; lia).
  rewrite E in C. cbn [implb] in C.
  apply andb_prop in C. destruct C as [C C3].
  apply andb_prop in C. destruct C as [C1 C2]. auto.
Qed.

(** * Further properties *)

(** ** [summarize_routes] *)

(** X1: the summary lists the routes in increasing order of their names,
    and no route twice. *)
Theorem summarize_routes_sorted df :
  Sorted route_le (map Summary.collection_route (summarize_routes df)) /\
  NoDup (map Summary.collection_route (summarize_routes df)).
Proof.
  rewrite summarize_routes_keys. split.
  - unfold group_keys. apply sort_keys_Sorted.
  - apply group_keys_NoDup.
Qed.

(** X2: every household that has both a route and an identifier is counted
    in exactly one route: the [total_households] of the summary add up to
    the number of such rows of the file. *)
Theorem households_counted_once df :
  sumZ (map Summary.total_households (summarize_routes df))
  = Z.of_nat (List.length (filter counted df)).
Proof.
  unfold summarize_routes. rewrite map_map.
  cbn [derive agg Summary.total_households agg_households].
  apply households_per_key.
  - apply group_keys_NoDup.
  - intros h k Hh Hk. apply in_group_keys. eauto.
Qed.

(** X3: nobody is lost or counted twice.  When no population is negative
    and the people on routed households are fewer than 2^63, the
    [total_population] of the summary add up to the population of the
    households that have a route. *)
Theorem population_conserved df :
  (forall h, In h df -> (0 <= Household.population h)%Z) ->
  (sumZ (map Household.population (filter routed df)) < 2 ^ 63)%Z ->
  sumZ (map Summary.total_population (summarize_routes df))
  = sumZ (map Household.population (filter routed df)).
Proof.
  intros Hpos Hsmall. unfold summarize_routes. rewrite map_map.
  cbn [derive agg Summary.total_population agg_population].
  rewrite (sumZ_map_ext _ (fun k => sumZ (map Household.population (group k df)))).
  - apply sumZ_per_key.
    + apply group_keys_NoDup.
    + intros h k Hh Hk. apply in_group_keys. eauto.
  - intros k. rewrite isum_wrap. apply wrap64_small.
    pose proof (sumZ_group_le Household.population k df Hpos). lia.
Qed.

Lemma population_conserved_witness :
  sumZ (map Summary.total_population (summarize_routes two_routes_df))
  = sumZ (map Household.population (filter routed two_routes_df)).
Proof.
  apply (population_conserved two_routes_df).
  - intros h Hh. cbn in Hh.
    destruct Hh as [<-|[<-|[<-|[<-|[]]]]]; cbn; lia.
  - vm_compute. reflexivity.
Defined.

(** X4: a route whose total distance and total time are not negative has
    no negative cost: fuel, labour, maintenance and their total are all at
    least zero (possibly infinite, never NaN). *)
Theorem summarize_routes_costs_nonneg df r :
  In r (summarize_routes df) ->
  (0 <=? Summary.total_distance_km r) = true ->
  (0 <=? Summary.total_time_hr r) = true ->
  (0 <=? Summary.total_fuel_cost r) = true /\
  (0 <=? Summary.total_labor_cost r) = true /\
  (0 <=? Summary.total_maintenance_cost r) = true /\
  (0 <=? Summary.total_operational_cost r) = true.
Proof.
  intros H. apply in_summarize_routes in H. destruct H as [k ->].
  exact (derive_costs_nonneg (agg k (group k df))).
Qed.

Lemma summarize_routes_costs_nonneg_witness :
  let r := route_of depot_df in
  (0 <=? Summary.total_fuel_cost r) = true /\
  (0 <=? Summary.total_labor_cost r) = true /\
  (0 <=? Summary.total_maintenance_cost r) = true /\
  (0 <=? Summary.total_operational_cost r) = true.
Proof.
  apply (summarize_routes_costs_nonneg depot_df).
  - left. reflexivity.
  - reflexivity.
  - reflexivity.
Defined.

(** X5: costs grow with distance and time.  Of two summary rows with
    non-negative totals, the one with no less distance and no less time has
    no less fuel, labour, maintenance and total operational cost. *)
Theorem summarize_routes_costs_monotone df1 df2 r1 r2 :
  In r1 (summarize_routes df1) ->
  In r2 (summarize_routes df2) ->
  (0 <=? Summary.total_distance_km r1) = true ->
  (Summary.total_distance_km r1 <=? Summary.total_distance_km r2) = true ->
  (0 <=? Summary.total_time_hr r1) = true ->
  (Summary.total_time_hr r1 <=? Summary.total_time_hr r2) = true ->
  (Summary.total_fuel_cost r1 <=? Summary.total_fuel_cost r2) = true /\
  (Summary.total_labor_cost r1 <=? Summary.total_labor_cost r2) = true /\
  (Summary.total_maintenance_cost r1 <=? Summary.total_maintenance_cost r2) = true /\
  (Summary.total_operational_cost r1 <=? Summary.total_operational_cost r2) = true.
Proof.
  intros H1 H2. apply in_summarize_routes in H1, H2.
  destruct H1 as [k1 ->], H2 as [k2 ->].
  exact (derive_costs_monotone (agg k1 (group k1 df1)) (agg k2 (group k2 df2))).
Qed.

Lemma summarize_routes_costs_monotone_witness :
  let r1 := route_of sample_df in
  let r2 := derive (agg route_b (group route_b two_routes_df)) in
  (Summary.total_fuel_cost r1 <=? Summary.total_fuel_cost r2) = true /\
  (Summary.total_labor_cost r1 <=? Summary.total_labor_cost r2) = true /\
  (Summary.total_maintenance_cost r1 <=? Summary.total_maintenance_cost r2) = true /\
  (Summary.total_operational_cost r1 <=? Summary.total_operational_cost r2) = true.
Proof.
  apply (summarize_routes_costs_monotone two_routes_df two_routes_df).
  - left. reflexivity.
  - right. left. reflexivity.
  - reflexivity.
  - reflexivity.
  - reflexivity.
  - reflexivity.
Defined.

(** X6: the base cost per kilogram is an unguarded division as well: a
    summary row whose total waste is zero has a cost per kilogram that is
    not finite.  Such a row arises when no household of the route has an
    identifier. *)
Theorem base_cost_per_kg_unguarded df s :
  In s (summarize_routes df) ->
  is_zero (Summary.total_waste_kg_per_day s) = true ->
  Summary.cost_per_kg_waste s
  = Summary.total_operational_cost s / Summary.total_waste_kg_per_day s /\
  is_finite (Summary.cost_per_kg_waste s) = false.
Proof.
  intros Hs. apply in_summarize_routes in Hs. destruct Hs as [k ->].
  cbn [derive Summary.total_waste_kg_per_day Summary.cost_per_kg_waste
       Summary.total_operational_cost].
  intros Hz. split; [reflexivity|]. now apply div_by_zero_not_finite.
Qed.

Lemma base_cost_per_kg_unguarded_witness :
  let s := route_of unregistered_df in
  Summary.total_households s = 0%Z /\
  Summary.cost_per_kg_waste s
  = Summary.total_operational_cost s / Summary.total_waste_kg_per_day s /\
  is_finite (Summary.cost_per_kg_waste s) = false.
Proof.
  split; [reflexivity|].
  apply (base_cost_per_kg_unguarded unregistered_df).
  - left. reflexivity.
  - reflexivity.
Defined.

(** ** [simulate_scenario] *)

(** X7: [simulate_scenario] reads seven columns of the summary (route,
    households, average waste, average recycling rate, total distance,
    labour cost, maintenance cost).  Two summaries that agree on these give
    the same scenario table, whatever their other columns hold. *)
Theorem simulate_scenario_reads t1 t2 recycling_increase fuel_cost_multiplier :
  Forall2 same_scenario_inputs t1 t2 ->
  simulate_scenario t1 recycling_increase fuel_cost_multiplier
  = simulate_scenario t2 recycling_increase fuel_cost_multiplier.
Proof.
  intros H. induction H as [|a b t1 t2 Hab _ IH]; [reflexivity|].
  unfold simulate_scenario in *. cbn [map]. rewrite IH. f_equal.
  destruct Hab as (E1 & E2 & E3 & E4 & E5 & E6 & E7).
  unfold select_scenario, simulate_row.
  cbn [sim_base sim_adjusted_waste_kg_per_day sim_new_recycling_rate
       sim_total_operational_cost sim_cost_per_kg_waste].
  now rewrite E1, E2, E3, E4, E5, E6, E7.
Qed.

Lemma simulate_scenario_reads_witness :
  simulate_scenario (summarize_routes sample_df) 0.2 1.5
  = simulate_scenario (map (with_stale_costs 1 2 3) (summarize_routes sample_df)) 0.2 1.5.
Proof.
  apply (simulate_scenario_reads
           (summarize_routes sample_df)
           (map (with_stale_costs 1 2 3) (summarize_routes sample_df)) 0.2 1.5).
  repeat constructor.
Defined.

(** X8: once the average rate plus the increase reaches 1 the new rate is
    exactly 1, the adjusted waste is zero and the cost per kilogram of the
    scenario is not finite. *)
Theorem full_recycling summary_df recycling_increase fuel_cost_multiplier s row :
  In (s, row) (combine summary_df
                 (simulate_scenario summary_df recycling_increase fuel_cost_multiplier)) ->
  (1 <=? Summary.avg_recycling_rate s + recycling_increase) = true ->
  is_finite (of_int64 (Summary.total_households s) * Summary.avg_waste_kg_per_day s) = true ->
  Scenario.new_recycling_rate row = 1 /\
  is_zero (Scenario.adjusted_waste_kg_per_day row) = true /\
  is_finite (Scenario.cost_per_kg_waste row) = false.
Proof.
  intros H Hr Hw. apply in_combine_map in H. destruct H as [_ ->].
  cbn [select_scenario simulate_row Scenario.new_recycling_rate
       Scenario.adjusted_waste_kg_per_day Scenario.cost_per_kg_waste
       sim_new_recycling_rate sim_adjusted_waste_kg_per_day sim_cost_per_kg_waste].
  rewrite (np_minimum_ge _ Hr). change (1 - 1) with 0.
  pose proof (mul_zero_r _ Hw) as Hz.
  split; [reflexivity|]. split; [assumption|]. now apply div_by_zero_not_finite.
Qed.

Lemma full_recycling_witness :
  let s := route_of sample_df in
  let row := select_scenario (simulate_row 0.5 1 s) in
  Scenario.new_recycling_rate row = 1 /\
  is_zero (Scenario.adjusted_waste_kg_per_day row) = true /\
  is_finite (Scenario.cost_per_kg_waste row) = false.
Proof.
  apply (full_recycling (summarize_routes sample_df) 0.5 1 (route_of sample_df)).
  - left. reflexivity.
  - reflexivity.
  - reflexivity.
Defined.

(** X9: more recycling, no more waste.  For a route with a non-negative
    rate and a finite non-negative base waste, a larger non-negative
    increase gives an adjusted waste that is no larger, never negative, and
    never above the base waste. *)
Theorem adjusted_waste_antitone summary_df r1 r2 m1 m2 s row1 row2 :
  In (s, row1) (combine summary_df (simulate_scenario summary_df r1 m1)) ->
  In (s, row2) (combine summary_df (simulate_scenario summary_df r2 m2)) ->
  (0 <=? Summary.avg_recycling_rate s) = true ->
  (0 <=? r1) = true -> (r1 <=? r2) = true ->
  (0 <=? of_int64 (Summary.total_households s) * Summary.avg_waste_kg_per_day s) = true ->
  is_infinity (of_int64 (Summary.total_households s) * Summary.avg_waste_kg_per_day s) = false ->
  (0 <=? Scenario.adjusted_waste_kg_per_day row2) = true /\
  (Scenario.adjusted_waste_kg_per_day row2 <=? Scenario.adjusted_waste_kg_per_day row1) = true /\
  (Scenario.adjusted_waste_kg_per_day row1
     <=? of_int64 (Summary.total_households s) * Summary.avg_waste_kg_per_day s) = true.
Proof.
  intros I1 I2. apply in_combine_map in I1, I2.
  destruct I1 as [_ ->], I2 as [_ ->]. apply simulate_row_waste_antitone.
Qed.

Lemma adjusted_waste_antitone_witness :
  let s := route_of sample_df in
  let row1 := select_scenario (simulate_row 0.1 1 s) in
  let row2 := select_scenario (simulate_row 0.3 1 s) in
  (0 <=? Scenario.adjusted_waste_kg_per_day row2) = true /\
  (Scenario.adjusted_waste_kg_per_day row2 <=? Scenario.adjusted_waste_kg_per_day row1) = true /\
  (Scenario.adjusted_waste_kg_per_day row1
     <=? of_int64 (Summary.total_households s) * Summary.avg_waste_kg_per_day s) = true.
Proof.
  apply (adjusted_waste_antitone (summarize_routes sample_df) 0.1 0.3 1 1
           (route_of sample_df)).
  - left. reflexivity.
  - left. reflexivity.
  - reflexivity.
  - reflexivity.
  - reflexivity.
  - reflexivity.
  - reflexivity.
Defined.

(** X10: a higher fuel multiplier gives no lower cost.  For a route with
    a finite non-negative distance and non-negative labour and maintenance
    costs, and for multipliers [0 <= m1 <= m2] with [m2] finite, the
    scenario cost is non-negative and monotone in the multiplier. *)
Theorem scenario_cost_monotone summary_df recycling_increase m1 m2 s row1 row2 :
  In (s, row1) (combine summary_df (simulate_scenario summary_df recycling_increase m1)) ->
  In (s, row2) (combine summary_df (simulate_scenario summary_df recycling_increase m2)) ->
  (0 <=? m1) = true -> (m1 <=? m2) = true -> is_infinity m2 = false ->
  (0 <=? Summary.total_distance_km s) = true ->
  is_infinity (Summary.total_distance_km s) = false ->
  (0 <=? Summary.total_labor_cost s) = true ->
  (0 <=? Summary.total_maintenance_cost s) = true ->
  (0 <=? Scenario.total_operational_cost row1) = true /\
  (Scenario.total_operational_cost row1 <=? Scenario.total_operational_cost row2) = true.
Proof.
  intros I1 I2. apply in_combine_map in I1, I2.
  destruct I1 as [_ ->], I2 as [_ ->]. apply simulate_row_cost_monotone.
Qed.

Lemma scenario_cost_monotone_witness :
  let s := route_of sample_df in
  let row1 := select_scenario (simulate_row 0.2 0.5 s) in
  let row2 := select_scenario (simulate_row 0.2 2 s) in
  (0 <=? Scenario.total_operational_cost row1) = true /\
  (Scenario.total_operational_cost row1 <=? Scenario.total_operational_cost row2) = true.
Proof.
  apply (scenario_cost_monotone (summarize_routes sample_df) 0.2 0.5 2 (route_of sample_df)).
  - left. reflexivity.
  - left. reflexivity.
  - reflexivity.
  - reflexivity.
  - reflexivity.
  - reflexivity.
  - reflexivity.
  - reflexivity.
  - reflexivity.
Defined.

(** ** [calculate_smart_bin_roi] *)

(** X11: the payback time is an unguarded division: a row whose expected
    annual savings are zero has a payback time that is not finite. *)
Theorem roi_years_unguarded summary_df smart_bin_cost_per_route annual_savings_factor row :
  In row (calculate_smart_bin_roi summary_df smart_bin_cost_per_route annual_savings_factor) ->
  is_zero (Roi.expected_annual_savings row) = true ->
  Roi.roi_years row = smart_bin_cost_per_route / Roi.expected_annual_savings row /\
  is_finite (Roi.roi_years row) = false.
Proof.
  unfold calculate_smart_bin_roi. rewrite in_map_iff. intros (s & <- & _).
  cbn [roi_row Roi.expected_annual_savings Roi.roi_years].
  intros Hz. split; [reflexivity|]. now apply div_by_zero_not_finite.
Qed.

Lemma roi_years_unguarded_witness :
  let row := roi_row 2000 0.15 (route_of depot_df) in
  Roi.roi_years row = 2000 / Roi.expected_annual_savings row /\
  is_finite (Roi.roi_years row) = false.
Proof.
  apply (roi_years_unguarded (summarize_routes depot_df) 2000 0.15).
  - left. reflexivity.
  - reflexivity.
Defined.

(** X12: within one ROI table, a route with a higher (positive)
    operational cost pays the bins back no later. *)
Theorem roi_years_antitone_in_cost summary_df smart_bin_cost_per_route
    annual_savings_factor r1 r2 :
  In r1 (calculate_smart_bin_roi summary_df smart_bin_cost_per_route annual_savings_factor) ->
  In r2 (calculate_smart_bin_roi summary_df smart_bin_cost_per_route annual_savings_factor) ->
  (0 <? Roi.total_operational_cost r1) = true ->
  (Roi.total_operational_cost r1 <=? Roi.total_operational_cost r2) = true ->
  (0 <? smart_bin_cost_per_route) = true ->
  is_infinity smart_bin_cost_per_route = false ->
  (0 <? annual_savings_factor) = true ->
  (Roi.roi_years r2 <=? Roi.roi_years r1) = true.
Proof.
  unfold calculate_smart_bin_roi. rewrite !in_map_iff.
  intros (s1 & <- & _) (s2 & <- & _).
  cbn [roi_row Roi.total_operational_cost Roi.roi_years].
  intros H1 L Hc Fc Hf. now apply div_mul_antimono_l.
Qed.

Lemma roi_years_antitone_in_cost_witness :
  let r1 := roi_row 2000 0.15 (route_of sample_df) in
  let r2 := roi_row 2000 0.15 (derive (agg route_b (group route_b two_routes_df))) in
  (Roi.roi_years r2 <=? Roi.roi_years r1) = true.
Proof.
  apply (roi_years_antitone_in_cost (summarize_routes two_routes_df) 2000 0.15).
  - left. reflexivity.
  - right. left. reflexivity.
  - reflexivity.
  - reflexivity.
  - reflexivity.
  - reflexivity.
  - reflexivity.
Defined.

(** X13: dearer bins pay back no sooner: for the same route, with a
    positive operational cost, and the same positive savings factor, a
    higher bin cost (positive, finite) gives a payback time that is no
    shorter. *)
Theorem roi_years_monotone_in_bin_cost summary_df c1 c2 annual_savings_factor r1 r2 :
  In (r1, r2) (combine (calculate_smart_bin_roi summary_df c1 annual_savings_factor)
                       (calculate_smart_bin_roi summary_df c2 annual_savings_factor)) ->
  (0 <? c1) = true -> (c1 <=? c2) = true -> is_infinity c2 = false ->
  (0 <? Roi.total_operational_cost r1) = true ->
  (0 <? annual_savings_factor) = true ->
  Roi.collection_route r2 = Roi.collection_route r1 /\
  (Roi.roi_years r1 <=? Roi.roi_years r2) = true.
Proof.
  intros H. apply in_combine_map_map in H. destruct H as (s & _ & -> & ->).
  cbn [roi_row Roi.total_operational_cost Roi.roi_years Roi.collection_route].
  intros H1 L F2 Ht Hf. split; [reflexivity|]. now apply div_mul_mono.
Qed.

Lemma roi_years_monotone_in_bin_cost_witness :
  let r1 := roi_row 2000 0.15 (route_of sample_df) in
  let r2 := roi_row 3000 0.15 (route_of sample_df) in
  Roi.collection_route r2 = Roi.collection_route r1 /\
  (Roi.roi_years r1 <=? Roi.roi_years r2) = true.
Proof.
  apply (roi_years_monotone_in_bin_cost (summarize_routes sample_df) 2000 3000 0.15).
  - left. reflexivity.
  - reflexivity.
  - reflexivity.
  - reflexivity.
  - reflexivity.
  - reflexivity.
Defined.

(** ** [calculate_carbon_emissions] *)

(** X14: emissions are non-negative and monotone both in the distance of
    the route and in the emission factor. *)
Theorem carbon_emission_monotone summary_df1 summary_df2 e1 e2 r1 r2 :
  In r1 (calculate_carbon_emissions summary_df1 e1) ->
  In r2 (calculate_carbon_emissions summary_df2 e2) ->
  (0 <=? Carbon.total_distance_km r1) = true ->
  (Carbon.total_distance_km r1 <=? Carbon.total_distance_km r2) = true ->
  is_infinity (Carbon.total_distance_km r2) = false ->
  (0 <=? e1) = true -> (e1 <=? e2) = true -> is_infinity e2 = false ->
  (0 <=? Carbon.carbon_emission_kg r1) = true /\
  (Carbon.carbon_emission_kg r1 <=? Carbon.carbon_emission_kg r2) = true.
Proof.
  unfold calculate_carbon_emissions. rewrite !in_map_iff.
  intros (s1 & <- & _) (s2 & <- & _).
  cbn [carbon_row Carbon.total_distance_km Carbon.carbon_emission_kg].
  intros Hd Ld Fd He Le Fe.
  pose proof (leb_nonneg _ _ Hd Ld) as Hd2.
  pose proof (leb_not_infinity _ _ Hd Ld Fd) as Fd1.
  destruct (mul_mono_r _ _ _ Hd Fd1 He Le Fe) as (A & P1 & _).
  pose proof (leb_nonneg _ _ He Le) as He2.
  destruct (mul_mono_r _ _ _ He2 Fe Hd Ld Fd) as (B & _ & _).
  rewrite (mul_comm e2), (mul_comm e2) in B.
  split; [assumption|]. exact (leb_trans _ _ _ P1 A B).
Qed.

Lemma carbon_emission_monotone_witness :
  let r1 := carbon_row 2.68 (route_of sample_df) in
  let r2 := carbon_row 3 (derive (agg route_b (group route_b two_routes_df))) in
  (0 <=? Carbon.carbon_emission_kg r1) = true /\
  (Carbon.carbon_emission_kg r1 <=? Carbon.carbon_emission_kg r2) = true.
Proof.
  apply (carbon_emission_monotone (summarize_routes two_routes_df)
                                  (summarize_routes two_routes_df) 2.68 3).
  - left. reflexivity.
  - right. left. reflexivity.
  - reflexivity.
  - reflexivity.
  - reflexivity.
  - reflexivity.
  - reflexivity.
  - reflexivity.
Defined.

(** ** The page *)

(** X15: the scenario, ROI and carbon tables each have exactly the routes
    of the file, in the order of the summary; the ROI table carries the
    operational cost of the summary and the carbon table its distance,
    unchanged. *)
Theorem downstream_routes df recycling_increase fuel_cost_multiplier
    smart_bin_cost_per_route annual_savings_factor emission_per_km :
  let summary := summarize_routes df in
  map Scenario.collection_route
      (simulate_scenario summary recycling_increase fuel_cost_multiplier)
  = group_keys df /\
  map Roi.collection_route
      (calculate_smart_bin_roi summary smart_bin_cost_per_route annual_savings_factor)
  = group_keys df /\
  map Carbon.collection_route (calculate_carbon_emissions summary emission_per_km)
  = group_keys df /\
  (forall k, In k (group_keys df) <->
             exists h, In h df /\ Household.collection_route h = Some k) /\
  map Roi.total_operational_cost
      (calculate_smart_bin_roi summary smart_bin_cost_per_route annual_savings_factor)
  = map Summary.total_operational_cost summary /\
  map Carbon.total_distance_km (calculate_carbon_emissions summary emission_per_km)
  = map Summary.total_distance_km summary.
Proof.
  cbv zeta. unfold simulate_scenario, calculate_smart_bin_roi, calculate_carbon_emissions.
  rewrite !map_map. cbn [select_scenario simulate_row sim_base roi_row carbon_row
    Scenario.collection_route Roi.collection_route Carbon.collection_route
    Roi.total_operational_cost Carbon.total_distance_km].
  rewrite summarize_routes_keys. repeat split; try reflexivity; apply in_group_keys.
Qed.

(** X16: the two sliders of the page.  For every route with non-negative
    finite waste and distance and non-negative rate and time, moving the
    recycling slider to the right (within 0..50) never raises the adjusted
    waste, which never exceeds the base waste, and moving the fuel slider
    to the right (within 0.5..2) never lowers the cost. *)
Theorem page_sliders_monotone df p1 p2 m1 m2 s row1 row2 :
  In (s, row1) (combine (summarize_routes df) (sim_result df p1 m1)) ->
  In (s, row2) (combine (summarize_routes df) (sim_result df p2 m2)) ->
  (0 <= p1)%Z -> (p1 <= p2)%Z -> (p2 <= 50)%Z ->
  (0.5 <=? m1) = true -> (m1 <=? m2) = true -> (m2 <=? 2) = true ->
  (0 <=? Summary.avg_recycling_rate s) = true ->
  (0 <=? Summary.total_waste_kg_per_day s) = true ->
  is_infinity (Summary.total_waste_kg_per_day s) = false ->
  (0 <=? Summary.total_distance_km s) = true ->
  is_infinity (Summary.total_distance_km s) = false ->
  (0 <=? Summary.total_time_hr s) = true ->
  (Scenario.adjusted_waste_kg_per_day row2 <=? Scenario.adjusted_waste_kg_per_day row1) = true /\
  (Scenario.adjusted_waste_kg_per_day row1 <=? Summary.total_waste_kg_per_day s) = true /\
  (Scenario.total_operational_cost row1 <=? Scenario.total_operational_cost row2) = true.
Proof.
  unfold sim_result. intros I1 I2. apply in_combine_map in I1, I2.
  destruct I1 as [Hs ->], I2 as [_ ->].
  apply in_summarize_routes in Hs. destruct Hs as [k ->].
  set (a := agg k (group k df)).
  cbn [derive Summary.avg_recycling_rate Summary.total_waste_kg_per_day
       Summary.total_distance_km Summary.total_time_hr].
  intros P0 P12 P50 M0 M12 M2 Ha Hw Fw Hd Fd Ht.
  destruct (recycling_increase_of_order p1 p2 P0 P12 P50) as (R0 & R12 & _).
  unfold recycling_increase_of in R0, R12.
  assert ((0 <=? m1) = true) as M1.
  { apply (leb_trans 0 0.5 m1); [reflexivity|reflexivity|assumption]. }
  assert (is_infinity m2 = false) as F2.
  { apply (leb_not_infinity m2 2); [|assumption|reflexivity].
    apply (leb_nonneg m1); assumption. }
  assert ((0 <=? Summary.total_labor_cost (derive a)) = true) as Hl.
  { cbn [derive Summary.total_labor_cost].
    now apply (mul_constant_nonneg _ (of_int64 15) 8444249301319680 (-49)). }
  assert ((0 <=? Summary.total_maintenance_cost (derive a)) = true) as Hm.
  { cbn [derive Summary.total_maintenance_cost].
    now apply (mul_constant_nonneg _ 0.1 7205759403792794 (-56)). }
  pose proof (simulate_row_waste_antitone (derive a) _ _ m1 m2 Ha R0 R12 Hw Fw) as W.
  pose proof (simulate_row_cost_monotone (derive a) (of_int64 p1 / 100) m1 m2
                M1 M12 F2 Hd Fd Hl Hm) as C.
  cbv zeta in W, C. destruct W as (_ & W1 & W2). destruct C as (_ & C).
  split; [exact W1|]. split; [exact W2|].
  cbn [select_scenario simulate_row Scenario.total_operational_cost
       sim_total_operational_cost] in C |- *.
  exact C.
Qed.

Lemma page_sliders_monotone_witness :
  let s := route_of sample_df in
  let row1 := select_scenario (simulate_row (of_int64 0 / 100) 0.5 s) in
  let row2 := select_scenario (simulate_row (of_int64 50 / 100) 2 s) in
  (Scenario.adjusted_waste_kg_per_day row2 <=? Scenario.adjusted_waste_kg_per_day row1) = true /\
  (Scenario.adjusted_waste_kg_per_day row1 <=? Summary.total_waste_kg_per_day s) = true /\
  (Scenario.total_operational_cost row1 <=? Scenario.total_operational_cost row2) = true.
Proof.
  apply (page_sliders_monotone sample_df 0 50 0.5 2 (route_of sample_df)).
  - left. reflexivity.
  - left. reflexivity.
  - lia.
  - lia.
  - lia.
  - reflexivity.
  - reflexivity.
  - reflexivity.
  - reflexivity.
  - reflexivity.
  - reflexivity.
  - reflexivity.
  - reflexivity.
  - reflexivity.
Defined.
